(** * BrandGrip CRM: the offline operation queue

    A shallow embedding of [src/lib/offline-queue.ts] (the IndexedDB layer:
    operation log and leads cache) and of [src/hooks/use-offline-queue.tsx]
    (the React hook that enqueues mutations and replays them against the
    remote service), followed by the properties of the queue, the replay
    pass and the cache.

    Conventions of the embedding:
    - a JavaScript object with string-valued properties is a finite map from
      property names to strings; the spread [{...data, id: t}] is an insert,
      the rest pattern [{id, ...rest}] a lookup and a delete;
    - an IndexedDB object store with [keyPath: 'id'] is a finite map from the
      key to the stored record; [getAll] lists the records in ascending key
      order;
    - an [async] function is a state transformer that returns the new state
      together with either its value or the error it rejects with;
    - a request on a store fails only for the reasons IndexedDB gives for
      it (a key that exists, a record without a key); faults of the
      storage itself, and a failure of [initDB], are left out;
    - [crypto.randomUUID()] and [Date.now()] are inputs of the functions that
      call them;
    - the remote service (supabase) is a parameter: a state and a transition
      function that answers every call with an optional error. *)

From Stdlib Require Import ZArith DecimalString.
From stdpp Require Import gmap strings list fin_maps sorting.


(** ** Errors and results *)

Inductive Error : Type :=
  | ConstraintError                 (* IndexedDB: add on a key that exists *)
  | DataError                       (* IndexedDB: the key path yields no key *)
  | UnsupportedTable (t : string)   (* processOperation: table is not 'leads' *)
  | RemoteRejected (e : string).    (* supabase answered with an error *)

Inductive Result (A : Type) : Type :=
  | Ok (a : A)
  | Err (e : Error).
Arguments Ok {A} a.
Arguments Err {A} e.

Global Instance Error_eq_dec : EqDecision Error.
Proof. solve_decision. Defined.

(** An asynchronous computation over a state [S]: the state survives a
    rejection, so the result is paired with the state reached. *)
Definition Async (S A : Type) : Type := S → S * Result A.

Definition resolve {S A} (a : A) : Async S A := λ s, (s, Ok a).
Definition reject {S A} (e : Error) : Async S A := λ s, (s, Err e).

(** [await c; k]: a rejection of [c] propagates and [k] does not run. *)
Definition await {S A B} (c : Async S A) (k : A → Async S B) : Async S B :=
  λ s, match c s with
       | (s', Ok a) => k a s'
       | (s', Err e) => (s', Err e)
       end.

(** [try { c } catch (e) { h e }] *)
Definition try_catch {S A} (c : Async S A) (h : Error → Async S A) : Async S A :=
  λ s, match c s with
       | (s', Ok a) => (s', Ok a)
       | (s', Err e) => h e s'
       end.

Notation "'do' x <- c ; k" := (await c (λ x, k))
  (at level 10, x binder, c at level 100, k at level 200,
   format "'[v' 'do'  x  <-  c ; '/' k ']'").
Notation "'do_' c ; k" := (await c (λ _, k))
  (at level 10, c at level 100, k at level 200,
   format "'[v' 'do_'  c ; '/' k ']'").

(** ** Stable sorting

    [Array.prototype.sort] is stable: elements that compare equal keep
    their relative order.  Insertion from the right with a non-strict test
    is the stable sort for the comparator [leb]. *)
Section StableSort.
Context {A : Type} (leb : A → A → bool).

Fixpoint insert_sorted (x : A) (l : list A) : list A :=
  match l with
  | [] => [x]
  | y :: l' => if leb x y then x :: l else y :: insert_sorted x l'
  end.

Definition stable_sort (l : list A) : list A := foldr insert_sorted [] l.
End StableSort.

(** ** JavaScript objects *)

Abbreviation Obj := (gmap string string).

(** [lead.id], the value at the key path ['id'] *)
Definition obj_id (o : Obj) : option string := o !! "id".

(** ** IndexedDB object stores with an in-line key *)
Module IDB.
Section Store.
Context {V : Type} (keyPath : V → option string).

(** Evaluating the key path is done when [add] or [put] is called: a
    record without a key makes the call throw [DataError]. *)
Definition extract_key (v : V) : Result string :=
  match keyPath v with
  | Some k => Ok k
  | None => Err DataError
  end.

(** The request placed by [add]: it fails when the key exists. *)
Definition add_request (k : string) (v : V) (s : gmap string V)
  : Result (gmap string V) :=
  match s !! k with
  | Some _ => Err ConstraintError
  | None => Ok (<[k := v]> s)
  end.

(** [store.add(v)] in a transaction of its own *)
Definition add (v : V) : Async (gmap string V) string :=
  λ s, match extract_key v with
       | Err e => (s, Err e)
       | Ok k => match add_request k v s with
                 | Ok s' => (s', Ok k)
                 | Err e => (s, Err e)
                 end
       end.

(** [store.put(v)] in a transaction of its own *)
Definition put (v : V) : Async (gmap string V) string :=
  λ s, match extract_key v with
       | Err e => (s, Err e)
       | Ok k => (<[k := v]> s, Ok k)
       end.
End Store.

Section Generic.
Context {V : Type}.

(** [store.delete(k)]: succeeds whether or not the key is present *)
Definition delete (k : string) : Async (gmap string V) unit :=
  λ s, (base.delete k s, Ok tt).

Definition clear (s : gmap string V) : gmap string V := ∅.

(** The order of the keys; on the keys stored here (UUIDs, and UUIDs
    prefixed by [temp_]) the order of the bytes is that of IndexedDB. *)
Definition key_leb (p q : string * V) : bool := String.leb p.1 q.1.

(** [store.getAll()]: the records in ascending order of their keys *)
Definition getAll (s : gmap string V) : list V :=
  (stable_sort key_leb (map_to_list s)).*2.

(** [store.count()] *)
Definition count (s : gmap string V) : nat := size s.
End Generic.
End IDB.

(** ** src/lib/offline-queue.ts *)

Inductive OpType : Type := OpInsert | OpUpdate | OpDelete.

Global Instance OpType_eq_dec : EqDecision OpType.
Proof. solve_decision. Defined.

Record QueuedOperation : Type := mkOp {
  op_id : string;
  op_type : OpType;
  op_table : string;
  op_data : Obj;
  op_timestamp : Z;
}.

Global Instance QueuedOperation_eq_dec : EqDecision QueuedOperation.
Proof. solve_decision. Defined.

(** The database [crm-offline-db] with its two object stores, both created
    with [keyPath: 'id'].  [initDB] is taken to have succeeded. *)
Record DB : Type := mkDB {
  queue_store : gmap string QueuedOperation;   (* 'offline-queue' *)
  leads_cache : gmap string Obj;               (* 'leads-cache' *)
}.

Definition set_queue_store (q : gmap string QueuedOperation) (d : DB) : DB :=
  {| queue_store := q; leads_cache := leads_cache d |}.
Definition set_leads_cache (c : gmap string Obj) (d : DB) : DB :=
  {| queue_store := queue_store d; leads_cache := c |}.

(** Run a computation on the operation log, or on the cache, of the database. *)
Definition on_queue {A} (c : Async (gmap string QueuedOperation) A) : Async DB A :=
  λ d, let '(q, r) := c (queue_store d) in (set_queue_store q d, r).
Definition on_cache {A} (c : Async (gmap string Obj) A) : Async DB A :=
  λ d, let '(l, r) := c (leads_cache d) in (set_leads_cache l d, r).

(** [Omit<QueuedOperation, 'id' | 'timestamp'>] *)
Record Operation : Type := mkOperation {
  type : OpType;
  table : string;
  data : Obj;
}.

Definition op_key (op : QueuedOperation) : option string := Some (op_id op).

(** [addToQueue(operation)]; [id] is the value of [crypto.randomUUID()] and
    [now] the value of [Date.now()]. *)
Definition addToQueue (id : string) (now : Z) (operation : Operation)
  : Async DB string :=
  let queuedOp :=
    {| op_id := id; op_type := type operation; op_table := table operation;
       op_data := data operation; op_timestamp := now |} in
  do_ on_queue (IDB.add op_key queuedOp);
  resolve id.

Definition removeFromQueue (id : string) : Async DB unit :=
  on_queue (IDB.delete id).

(** [(a, b) => a.timestamp - b.timestamp] is negative or zero *)
Definition timestamp_leb (a b : QueuedOperation) : bool :=
  (op_timestamp a <=? op_timestamp b)%Z.

Definition getQueuedOperations : Async DB (list QueuedOperation) :=
  λ d, (d, Ok (stable_sort timestamp_leb (IDB.getAll (queue_store d)))).

Definition getQueueCount : Async DB nat :=
  λ d, (d, Ok (IDB.count (queue_store d))).

(** [leads.forEach(lead => store.add(lead))]: every call of [add] extracts
    the key at once and places a request; a lead without an id makes [add]
    throw, which ends the [forEach] and rejects the promise.  The result is
    the list of requests placed and whether the loop threw. *)
Fixpoint place_adds (leads : list Obj) : list (string * Obj) * bool :=
  match leads with
  | [] => ([], false)
  | lead :: rest =>
      match IDB.extract_key obj_id lead with
      | Err _ => ([], true)
      | Ok k => let '(reqs, threw) := place_adds rest in ((k, lead) :: reqs, threw)
      end
  end.

(** The requests of one transaction run in the order they were placed; the
    first one that fails aborts the transaction ([None]). *)
Fixpoint run_adds (reqs : list (string * Obj)) (s : gmap string Obj)
  : option (gmap string Obj) :=
  match reqs with
  | [] => Some s
  | (k, v) :: rest =>
      match IDB.add_request k v s with
      | Ok s' => run_adds rest s'
      | Err _ => None
      end
  end.

(** [cacheLeads(leads)]: [clear] and the [add]s are requests of a single
    read-write transaction.  When a request fails the transaction aborts,
    every change made in it is rolled back and the promise rejects.  When
    [add] throws, the promise rejects at once, but the requests placed
    before are still carried out and committed.  For an aborted
    transaction the result names the cause of the rejection,
    [ConstraintError]; the value the promise rejects with is
    [transaction.error] as [onerror] finds it. *)
Definition cacheLeads (leads : list Obj) : Async DB unit :=
  λ d, let '(reqs, threw) := place_adds leads in
       match run_adds reqs (IDB.clear (leads_cache d)) with
       | Some s' => (set_leads_cache s' d, if threw then Err DataError else Ok tt)
       | None => (d, Err (if threw then DataError else ConstraintError))
       end.

Definition getCachedLeads : Async DB (list Obj) :=
  λ d, (d, Ok (IDB.getAll (leads_cache d))).

Definition updateCachedLead (lead : Obj) : Async DB unit :=
  do_ on_cache (IDB.put obj_id lead);
  resolve tt.

Definition deleteCachedLead (id : string) : Async DB unit :=
  on_cache (IDB.delete id).

(** ** The remote service and the presentation layer *)

(** The calls [processOperation] makes on [supabase.from('leads')] *)
Inductive RemoteCall : Type :=
  | RInsert (record : Obj)                        (* .insert([record]) *)
  | RUpdate (id : option string) (fields : Obj)   (* .update(fields).eq('id', id) *)
  | RDelete (id : option string).                 (* .delete().eq('id', id) *)

Global Instance RemoteCall_eq_dec : EqDecision RemoteCall.
Proof. solve_decision. Defined.

Record Toast : Type := mkToast {
  title : string;
  description : string;
  destructive : bool;
}.

Inductive ConsoleLine : Type :=
  | FailedToGetCount (e : Error)
  | FailedToSync (op : QueuedOperation) (e : Error)
  | SyncFailed (e : Error).

(** [`${n}`] for a count *)
Definition show_nat (n : nat) : string := NilZero.string_of_uint (Nat.to_uint n).

(** ** src/hooks/use-offline-queue.tsx *)
Section Hook.
(** The remote service: its state, and its answer [{ error }] to a call. *)
Context {R : Type} (supabase : R → RemoteCall → R * option string).

(** Everything the hook reads and writes: the database, its two pieces of
    React state, the toasts and console lines it has emitted, the remote
    service and the calls made on it so far.  [isSyncing] is the value
    seen by the closure that is invoked.  The count and the flag belong to
    one instance of the hook: every component that calls
    [useOfflineQueue()] has its own, while the database, the remote service,
    the toasts and the console are shared ([in_other_instance] below). *)
Record World : Type := mkWorld {
  db : DB;
  queueCount : nat;
  isSyncing : bool;
  toasts : list Toast;
  console : list ConsoleLine;
  remote : R;
  calls : list RemoteCall;
}.

Definition set_db (d : DB) (w : World) : World :=
  {| db := d; queueCount := queueCount w; isSyncing := isSyncing w;
     toasts := toasts w; console := console w; remote := remote w;
     calls := calls w |}.

Definition on_db {A} (c : Async DB A) : Async World A :=
  λ w, let '(d, r) := c (db w) in (set_db d w, r).

Definition setQueueCount (n : nat) : Async World unit :=
  λ w, ({| db := db w; queueCount := n; isSyncing := isSyncing w;
           toasts := toasts w; console := console w; remote := remote w;
           calls := calls w |}, Ok tt).

Definition setIsSyncing (b : bool) : Async World unit :=
  λ w, ({| db := db w; queueCount := queueCount w; isSyncing := b;
           toasts := toasts w; console := console w; remote := remote w;
           calls := calls w |}, Ok tt).

Definition toast (t : Toast) : Async World unit :=
  λ w, ({| db := db w; queueCount := queueCount w; isSyncing := isSyncing w;
           toasts := toasts w ++ [t]; console := console w;
           remote := remote w; calls := calls w |}, Ok tt).

Definition console_error (l : ConsoleLine) : Async World unit :=
  λ w, ({| db := db w; queueCount := queueCount w; isSyncing := isSyncing w;
           toasts := toasts w; console := console w ++ [l];
           remote := remote w; calls := calls w |}, Ok tt).

(** One awaited call on the remote service; the call is recorded. *)
Definition from_leads (c : RemoteCall) : Async World (option string) :=
  λ w, let '(r, e) := supabase (remote w) c in
       ({| db := db w; queueCount := queueCount w; isSyncing := isSyncing w;
           toasts := toasts w; console := console w; remote := r;
           calls := calls w ++ [c] |}, Ok e).

(** [if (error) throw error] *)
Definition throw_if (e : option string) : Async World unit :=
  match e with
  | Some msg => reject (RemoteRejected msg)
  | None => resolve tt
  end.

(** [getQueueCount] does not reject here, so the handler stays unused. *)
Definition updateQueueCount : Async World unit :=
  try_catch
    (do count <- on_db getQueueCount;
     setQueueCount count)
    (λ e, console_error (FailedToGetCount e)).

Definition processOperation (op : QueuedOperation) : Async World unit :=
  if decide (op_table op ≠ "leads") then
    reject (UnsupportedTable (op_table op))
  else
    match op_type op with
    | OpInsert =>
        (* const { id: tempId, ...insertData } = op.data *)
        let insertData := delete "id" (op_data op) in
        do insertError <- from_leads (RInsert insertData);
        throw_if insertError
    | OpUpdate =>
        (* const { id: updateId, ...updateData } = op.data *)
        let updateId := obj_id (op_data op) in
        let updateData := delete "id" (op_data op) in
        do updateError <- from_leads (RUpdate updateId updateData);
        throw_if updateError
    | OpDelete =>
        do deleteError <- from_leads (RDelete (obj_id (op_data op)));
        throw_if deleteError
    end.

(** The body of the [for] loop of [syncQueue]; [cnt] holds the locals
    [successCount] and [failCount]. *)
Definition sync_body (op : QueuedOperation) (cnt : nat * nat)
  : Async World (nat * nat) :=
  try_catch
    (do_ processOperation op;
     do_ on_db (removeFromQueue (op_id op));
     resolve (S cnt.1, cnt.2))
    (λ error,
     do_ console_error (FailedToSync op error);
     resolve (cnt.1, S cnt.2)).

Fixpoint sync_loop (operations : list QueuedOperation) (cnt : nat * nat)
  : Async World (nat * nat) :=
  match operations with
  | [] => resolve cnt
  | op :: rest =>
      do cnt' <- sync_body op cnt;
      sync_loop rest cnt'
  end.

(** Lines 52 to 65: read the log, then replay it; the value is the pair
    [(successCount, failCount)] at the end of the loop. *)
Definition syncPass : Async World (nat * nat) :=
  do operations <- on_db getQueuedOperations;
  sync_loop operations (0, 0).

Definition syncComplete (successCount failCount : nat) : Toast :=
  {| title := "Sync Complete";
     description :=
       "Successfully synced " +:+ show_nat successCount +:+ " change"
       +:+ (if (1 <? successCount)%nat then "s" else "")
       +:+ (if (0 <? failCount)%nat then ", " +:+ show_nat failCount +:+ " failed"
            else "");
     destructive := false |}.

Definition syncFailed : Toast :=
  {| title := "Sync Failed";
     description := "Some changes could not be synced. Will retry later.";
     destructive := true |}.

Definition syncQueue : Async World unit :=
  λ w,
    if isSyncing w then (w, Ok tt)
    else
      (do_ setIsSyncing true;
       do_ try_catch
             (do cnt <- syncPass;
              do_ updateQueueCount;
              if (0 <? cnt.1)%nat then toast (syncComplete cnt.1 cnt.2)
              else resolve tt)
             (λ error,
              do_ console_error (SyncFailed error);
              toast syncFailed);
       (* finally *)
       setIsSyncing false) w.

Definition savedOffline : Toast :=
  {| title := "Saved Offline";
     description := "Changes will sync when you're back online.";
     destructive := false |}.

Definition deletedOffline : Toast :=
  {| title := "Deleted Offline";
     description := "Changes will sync when you're back online.";
     destructive := false |}.

(** [queueInsert(table, data)]; [uuid] is the value of the call of
    [crypto.randomUUID()] in [queueInsert], [op_uuid] and [now] are the
    values [addToQueue] obtains. *)
Definition queueInsert (uuid op_uuid : string) (now : Z)
    (table : string) (data : Obj) : Async World string :=
  let tempId := "temp_" +:+ uuid in
  let dataWithId := <["id" := tempId]> data in
  do_ on_db (addToQueue op_uuid now (mkOperation OpInsert table data));
  do_ on_db (updateCachedLead dataWithId);
  do_ updateQueueCount;
  do_ toast savedOffline;
  resolve tempId.

Definition queueUpdate (op_uuid : string) (now : Z)
    (table : string) (data : Obj) : Async World unit :=
  do_ on_db (addToQueue op_uuid now (mkOperation OpUpdate table data));
  do_ on_db (updateCachedLead data);
  do_ updateQueueCount;
  toast savedOffline.

Definition queueDelete (op_uuid : string) (now : Z)
    (table : string) (id : string) : Async World unit :=
  do_ on_db (addToQueue op_uuid now (mkOperation OpDelete table {["id" := id]}));
  do_ on_db (deleteCachedLead id);
  do_ updateQueueCount;
  toast deletedOffline.
End Hook.

Arguments World : clear implicits.

(** ** Vocabulary of the properties *)

(** The call [processOperation] builds for an operation on ['leads']. *)
Definition call_of (op : QueuedOperation) : RemoteCall :=
  match op_type op with
  | OpInsert => RInsert (delete "id" (op_data op))
  | OpUpdate => RUpdate (obj_id (op_data op)) (delete "id" (op_data op))
  | OpDelete => RDelete (obj_id (op_data op))
  end.

(** The calls one operation causes: none when its table is not supported. *)
Definition calls_of (op : QueuedOperation) : list RemoteCall :=
  if decide (op_table op ≠ "leads") then [] else [call_of op].

Definition remote_result (e : option string) : Result unit :=
  match e with
  | Some msg => Err (RemoteRejected msg)
  | None => Ok tt
  end.

(** The tallies after one more outcome. *)
Definition tally (res : Result unit) (cnt : nat * nat) : nat * nat :=
  match res with
  | Ok _ => (S cnt.1, cnt.2)
  | Err _ => (cnt.1, S cnt.2)
  end.

(** A call of one of the three enqueue functions, with the values that
    [crypto.randomUUID()] and [Date.now()] take during the call. *)
Inductive Enqueue : Type :=
  | QInsert (uuid op_uuid : string) (now : Z) (table : string) (data : Obj)
  | QUpdate (op_uuid : string) (now : Z) (table : string) (data : Obj)
  | QDelete (op_uuid : string) (now : Z) (table : string) (id : string).

(** The operation an enqueue call appends to the log. *)
Definition logged (q : Enqueue) : QueuedOperation :=
  match q with
  | QInsert _ op_uuid now table data => mkOp op_uuid OpInsert table data now
  | QUpdate op_uuid now table data => mkOp op_uuid OpUpdate table data now
  | QDelete op_uuid now table id => mkOp op_uuid OpDelete table {["id" := id]} now
  end.

(** The argument an enqueue call passes to [addToQueue]. *)
Definition payload (q : Enqueue) : Operation :=
  mkOperation (op_type (logged q)) (op_table (logged q)) (op_data (logged q)).

Section HookVocabulary.
Context {R : Type} (supabase : R → RemoteCall → R * option string).

(** What dispatching [op] does to the remote service in state [r]: the new
    state, the calls made, and the outcome. *)
Definition remote_outcome (op : QueuedOperation) (r : R)
  : R * list RemoteCall * Result unit :=
  if decide (op_table op ≠ "leads") then
    (r, [], Err (UnsupportedTable (op_table op)))
  else
    let '(r', e) := supabase r (call_of op) in
    (r', [call_of op], remote_result e).

(** The world after one iteration of the loop of [syncQueue]. *)
Definition replayed (op : QueuedOperation) (r' : R) (cs : list RemoteCall)
    (res : Result unit) (w : World R) : World R :=
  {| db := match res with
           | Ok _ => set_queue_store (delete (op_id op) (queue_store (db w))) (db w)
           | Err _ => db w
           end;
     queueCount := queueCount w;
     isSyncing := isSyncing w;
     toasts := toasts w;
     console := match res with
                | Ok _ => console w
                | Err e => console w ++ [FailedToSync op e]
                end;
     remote := r';
     calls := calls w ++ cs |}.

(** One iteration of the loop as a step on the world and the tallies. *)
Definition replay_step (st : World R * (nat * nat)) (op : QueuedOperation)
  : World R * (nat * nat) :=
  let '(r', cs, res) := remote_outcome op (remote st.1) in
  (replayed op r' cs res st.1, tally res st.2).

Definition enqueue (q : Enqueue) : Async (World R) unit :=
  match q with
  | QInsert uuid op_uuid now table data =>
      do_ queueInsert uuid op_uuid now table data;
      resolve tt
  | QUpdate op_uuid now table data => queueUpdate op_uuid now table data
  | QDelete op_uuid now table id => queueDelete op_uuid now table id
  end.

(** A sequence of enqueue calls, each awaited by its caller; a call that
    rejects does not stop the following ones. *)
Definition enqueue_all (qs : list Enqueue) (w : World R) : World R :=
  foldl (λ w q, (enqueue q w).1) w qs.

(** The order in which a pass started in [w] replays the log. *)
Definition replay_order (w : World R) : list QueuedOperation :=
  stable_sort timestamp_leb (IDB.getAll (queue_store (db w))).

(** The world and the tallies at the end of the loop of a pass started
    in [w]. *)
Definition replay (w : World R) : World R * (nat * nat) :=
  foldl replay_step ((setIsSyncing true w).1, (0, 0)) (replay_order w).

(** The depth of the queue: the number of logged operations. *)
Definition depth (w : World R) : nat := IDB.count (queue_store (db w)).

(** Enqueue calls [qs] made in [w0] and then one drain: the queue is
    empty afterwards, and the remote service has received one call per
    enqueued operation, in the order of the enqueue calls. *)
Definition replays_everything (w0 : World R) (qs : list Enqueue) : Prop :=
  let w := (syncQueue supabase (enqueue_all qs w0)).1 in
  depth w = 0 ∧ queueCount w = 0 ∧
  calls w = calls w0 ++ ((call_of ∘ logged) <$> qs).
End HookVocabulary.

(** The invariant of a store with an in-line key: a record is stored under
    the key found at its key path. *)
Definition keyed {V} (keyPath : V → option string) (s : gmap string V) : Prop :=
  ∀ k v, s !! k = Some v → keyPath v = Some k.

Global Instance keyed_dec {V} (keyPath : V → option string) (s : gmap string V) :
  Decision (keyed keyPath s).
Proof.
  refine (map_Forall_dec (λ k v, keyPath v = Some k) s).
  intros k v. apply _.
Defined.

(** What a caller of [syncQueue] in world [w] could take as a sign that the
    call was refused: a value other than the [undefined] a completed pass
    resolves to, a toast, or a console line. *)
Definition signals_already_running {R} (w : World R)
    (out : World R * Result unit) : Prop :=
  out.2 ≠ Ok tt ∨ toasts out.1 ≠ toasts w ∨ console out.1 ≠ console w.

(** The re-entrancy property with the indication: a call made while a pass
    is running signals that, makes no remote call and changes nothing in
    the database. *)
Definition refuses_with_indication {R}
    (supabase : R → RemoteCall → R * option string) (w : World R) : Prop :=
  isSyncing w = true →
  signals_already_running w (syncQueue supabase w) ∧
  calls (syncQueue supabase w).1 = calls w ∧
  db (syncQueue supabase w).1 = db w.

(** Both stores of the database are keyed. *)
Definition db_keyed (d : DB) : Prop :=
  keyed op_key (queue_store d) ∧ keyed obj_id (leads_cache d).

(** The cache as [getCachedLeads] returns it. *)
Definition readAll (d : DB) : list Obj :=
  match getCachedLeads d with
  | (_, Ok leads) => leads
  | (_, Err _) => []
  end.

(** The ids of the leads of a list, in order. *)
Definition lead_ids (leads : list Obj) : list string := omap obj_id leads.

(** Cache consistency: an upserted entity is read back; an evicted id is
    not; after [cacheLeads [x; y]] exactly [x] and [y] are read back. *)
Definition cache_consistent (d : DB) (e : Obj) (id : string) (x y : Obj) : Prop :=
  e ∈ readAll (updateCachedLead e d).1 ∧
  (∀ o, o ∈ readAll (deleteCachedLead id d).1 → obj_id o ≠ Some id) ∧
  (∀ o, o ∈ readAll (cacheLeads [x; y] d).1 ↔ o = x ∨ o = y).

(** Atomicity of [cacheLeads]: when the promise rejects, the database is
    as it was before the call. *)
Definition replaceAll_atomic (d : DB) (leads : list Obj) : Prop :=
  (cacheLeads leads d).2 ≠ Ok tt → (cacheLeads leads d).1 = d.

(** ** Example data *)

(** A remote service that accepts every call. *)
Definition always_ok : unit → RemoteCall → unit * option string :=
  λ r _, (r, None).

(** A remote service that rejects every delete. *)
Definition rejects_delete : unit → RemoteCall → unit * option string :=
  λ r c, (r, match c with RDelete _ => Some "row not found" | _ => None end).

(** Nothing logged, nothing cached, no pass running. *)
Definition idle0 : World unit :=
  {| db := mkDB ∅ ∅; queueCount := 0; isSyncing := false; toasts := [];
     console := []; remote := tt; calls := [] |}.

Definition acme : Obj := {["client_name" := "Acme"]}.
Definition won7 : Obj := {["id" := "7"; "stage" := "won"]}.

Definition opA : QueuedOperation := mkOp "a" OpInsert "leads" acme 1.
Definition opB : QueuedOperation := mkOp "b" OpDelete "leads" {["id" := "42"]} 2.
Definition opC : QueuedOperation := mkOp "c" OpUpdate "leads" won7 3.

(** An insert, a delete and an update made offline, one millisecond apart. *)
Definition three_enqueues : list Enqueue :=
  [QInsert "t1" "a" 1 "leads" acme; QDelete "b" 2 "leads" "42";
   QUpdate "c" 3 "leads" won7].

Definition three_queued : World unit := enqueue_all three_enqueues idle0.

(** The log already holds an operation with the id ["a"]. *)
Definition one_queued : World unit :=
  (queueInsert "t1" "a" 1 "leads" acme idle0).1.

(** A pass is running over the three operations. *)
Definition three_busy : World unit := (setIsSyncing true three_queued).1.

(** A cache that holds one lead, and leads to replace it with. *)
Definition lead9 : Obj := {["id" := "9"; "client_name" := "Zeta"]}.
Definition lead1a : Obj := {["id" := "1"; "client_name" := "Ann"]}.
Definition lead1b : Obj := {["id" := "1"; "client_name" := "Bob"]}.
Definition lead2 : Obj := {["id" := "2"; "client_name" := "Cyd"]}.
Definition cached9 : DB := mkDB ∅ {["9" := lead9]}.

(** ** The effects of the hook, and the components that use it *)

(** What [SyncIndicator] renders: the cloud with "Synced"; the crossed
    cloud with "Offline" and, for a positive count, the badge
    "{count} pending"; or the sync button, disabled while syncing, with its
    label and the badge. *)
Inductive SyncView : Type :=
  | ViewSynced
  | ViewOffline (pending : option nat)
  | ViewSync (disabled : bool) (label : string) (pending : nat).

(** The state of the component [LeadsTable] that [handleDelete] writes, and
    the number of times it has called [onLeadUpdated]. *)
Record LeadsTable : Type := mkLeadsTable {
  table_leads : list Obj;
  deletingLeadId : option string;
  leadUpdated : nat;
}.

Section HookUsers.
Context {R : Type} (supabase : R → RemoteCall → R * option string).

(** The second effect of the hook, which runs after the first render and
    after every render in which [isOnline] has changed; [syncQueue()] is
    started and not awaited. *)
Definition syncOnReconnect (isOnline : bool) : Async (World R) unit :=
  λ w, if isOnline && (0 <? queueCount w)%nat then syncQueue supabase w
       else (w, Ok tt).

(** Mounting a component that uses the hook: the state starts as
    [useState(0)] and [useState(false)]; the second effect runs with the
    values of the first render; [updateQueueCount] runs once [initDB] has
    resolved. *)
Definition mount (isOnline : bool) : Async (World R) unit :=
  λ w, (do_ syncOnReconnect isOnline;
        updateQueueCount)
         {| db := db w; queueCount := 0; isSyncing := false;
            toasts := toasts w; console := console w; remote := remote w;
            calls := calls w |}.

(** [SyncIndicator], from the values the hook returns *)
Definition SyncIndicator (isOnline : bool) (w : World R) : SyncView :=
  if isOnline && (queueCount w =? 0)%nat then ViewSynced
  else if negb isOnline then
    ViewOffline (if (0 <? queueCount w)%nat then Some (queueCount w) else None)
  else
    ViewSync (isSyncing w) (if isSyncing w then "Syncing..." else "Sync")
      (queueCount w).

(** A click on what [SyncIndicator] shows: only the enabled button has a
    handler, [syncQueue]. *)
Definition clickSync (isOnline : bool) : Async (World R) unit :=
  λ w, match SyncIndicator isOnline w with
       | ViewSync false _ _ => syncQueue supabase w
       | _ => (w, Ok tt)
       end.

(** [error.message]: the message of the remote service, the message built
    by [processOperation], or the text of the DOMException. *)
Context (DOMException_message : Error → string).

Definition error_message (e : Error) : string :=
  match e with
  | RemoteRejected msg => msg
  | UnsupportedTable t => "Unsupported table: " +:+ t
  | _ => DOMException_message e
  end.

Definition on_hook {A} (c : Async (World R) A) : Async (LeadsTable * World R) A :=
  λ st, let '(w, r) := c st.2 in ((st.1, w), r).

Definition setLeads (f : list Obj → list Obj) : Async (LeadsTable * World R) unit :=
  λ st, (({| table_leads := f (table_leads st.1);
             deletingLeadId := deletingLeadId st.1;
             leadUpdated := leadUpdated st.1 |}, st.2), Ok tt).

Definition setDeletingLeadId (v : option string)
  : Async (LeadsTable * World R) unit :=
  λ st, (({| table_leads := table_leads st.1;
             deletingLeadId := v;
             leadUpdated := leadUpdated st.1 |}, st.2), Ok tt).

Definition onLeadUpdated : Async (LeadsTable * World R) unit :=
  λ st, (({| table_leads := table_leads st.1;
             deletingLeadId := deletingLeadId st.1;
             leadUpdated := S (leadUpdated st.1) |}, st.2), Ok tt).

Definition deletedOnline : Toast :=
  {| title := "Success"; description := "Lead deleted successfully";
     destructive := false |}.

Definition errorToast (e : Error) : Toast :=
  {| title := "Error"; description := error_message e; destructive := true |}.

(** [handleDelete(id)] of [LeadsTable]; [op_uuid] and [now] are the values
    [addToQueue] obtains when the delete is queued. *)
Definition handleDelete (isOnline : bool) (op_uuid : string) (now : Z)
    (id : string) : Async (LeadsTable * World R) unit :=
  do_ try_catch
        (do_ (if isOnline then
                do error <- on_hook (from_leads supabase (RDelete (Some id)));
                do_ on_hook (throw_if error);
                on_hook (toast deletedOnline)
              else
                on_hook (queueDelete op_uuid now "leads" id));
         (* Update local state immediately *)
         do_ setLeads (filter (λ lead, obj_id lead ≠ Some id));
         onLeadUpdated)
        (λ error, on_hook (toast (errorToast error)));
  (* finally *)
  setDeletingLeadId None.
End HookUsers.

(** ** What a component can do with the hook *)

(** The calls and events through which the state of the hook and the
    database change. *)
Inductive Action : Type :=
  | DoMount (isOnline : bool)
  | DoReconnect (isOnline : bool)
  | DoClick (isOnline : bool)
  | DoSync
  | DoEnqueue (q : Enqueue)
  | DoCacheLeads (leads : list Obj).

Section Actions.
Context {R : Type} (supabase : R → RemoteCall → R * option string).

Definition perform (w : World R) (a : Action) : World R :=
  match a with
  | DoMount isOnline => (mount supabase isOnline w).1
  | DoReconnect isOnline => (syncOnReconnect supabase isOnline w).1
  | DoClick isOnline => (clickSync supabase isOnline w).1
  | DoSync => (syncQueue supabase w).1
  | DoEnqueue q => (enqueue q w).1
  | DoCacheLeads leads => (on_db (cacheLeads leads) w).1
  end.
End Actions.

(** ** Vocabulary of the further properties *)

(** In order by [leb], and by [R] where [leb] does not tell apart. *)
Definition lex_sorted {A} (leb : A → A → bool) (R : relation A) (a b : A) : Prop :=
  leb a b = true ∧ (leb b a = true → R a b).

(** The order of two operations in a replay: the older one first, and of
    two with the same timestamp the one with the smaller id. *)
Definition replay_before (a b : QueuedOperation) : Prop :=
  (op_timestamp a < op_timestamp b)%Z ∨
  (op_timestamp a = op_timestamp b ∧ String.le (op_id a) (op_id b)).

(** The order of two cached leads in [getCachedLeads]: by their ids. *)
Definition id_before (a b : Obj) : Prop :=
  ∃ ka kb, obj_id a = Some ka ∧ obj_id b = Some kb ∧ String.le ka kb.

(** The record a remote call carries, if any. *)
Definition call_record (c : RemoteCall) : option Obj :=
  match c with
  | RInsert record => Some record
  | RUpdate _ fields => Some fields
  | RDelete _ => None
  end.

(** A database whose log holds the three operations above. *)
Definition logged3 : DB := db three_queued.

(** A remote service that rejects every call. *)
Definition always_rejects : unit → RemoteCall → unit * option string :=
  λ r _, (r, Some "offline").

(** The table shows leads 1 and 9; lead 9 is about to be deleted. *)
Definition table19 : LeadsTable :=
  {| table_leads := [lead1a; lead9]; deletingLeadId := Some "9";
     leadUpdated := 0 |}.

(** The world of the table: lead 9 is cached, nothing is logged. *)
Definition world9 : World unit :=
  {| db := cached9; queueCount := 0; isSyncing := false; toasts := [];
     console := []; remote := tt; calls := [] |}.

Definition plain_message (e : Error) : string := "storage error".

(** ** Another instance of the hook, and what a caller observes *)

(** The world with the count and the flag of another instance of the hook. *)
Definition seen_by {R} (own : nat * bool) (w : World R) : World R :=
  {| db := db w; queueCount := own.1; isSyncing := own.2; toasts := toasts w;
     console := console w; remote := remote w; calls := calls w |}.

(** [c] called in another instance of the hook, whose count and flag are
    [own]: it works on the shared database and remote service, and leaves
    the count and the flag of the first instance as they are. *)
Definition in_other_instance {R A} (own : nat * bool) (c : Async (World R) A)
  : Async (World R) A :=
  λ w, let '(w', r) := c (seen_by own w) in
       (seen_by (queueCount w, isSyncing w) w', r).

(** What a caller of [syncQueue] in world [w] could take as the result of
    the drain: a value other than [undefined], a toast, or a console
    line. *)
Definition returns_a_result {R} (w : World R)
    (out : World R * Result unit) : Prop :=
  out.2 ≠ Ok tt ∨ toasts out.1 ≠ toasts w ∨ console out.1 ≠ console w.

(** The drain of an empty queue with a result returned: no remote call,
    the database unchanged, and a result handed to the caller. *)
Definition empty_drain_returns_result {R}
    (supabase : R → RemoteCall → R * option string) (w : World R) : Prop :=
  depth w = 0 →
  returns_a_result w (syncQueue supabase w) ∧
  calls (syncQueue supabase w).1 = calls w ∧
  db (syncQueue supabase w).1 = db w.


(** A lead created and then marked as won under its temporary id, both
    within the same millisecond. *)
Definition won_temp : Obj := {["id" := "temp_abc"; "stage" := "won"]}.

Definition same_ms_enqueues : list Enqueue :=
  [QInsert "abc" "b" 5 "leads" acme; QUpdate "a" 5 "leads" won_temp].

Definition same_ms_queued : World unit := enqueue_all same_ms_enqueues idle0.

(** The calls that replay the three operations above. *)
Definition three_calls : list RemoteCall :=
  [RInsert acme; RDelete (Some "42"); RUpdate (Some "7") {["stage" := "won"]}].

(** * Properties *)

(** ** The stable sort *)

Lemma Sorted_weaken {A} (R1 R2 : relation A) (l : list A) :
  (∀ a b, R1 a b → R2 a b) → Sorted R1 l → Sorted R2 l.
Proof.
  intros HR. induction 1 as [|x l Hl IH Hx]; constructor; [done|].
  destruct Hx; constructor; auto.
Qed.

Section StableSortFacts.
Context {A : Type} (leb : A → A → bool).

Lemma insert_sorted_Permutation x l : insert_sorted leb x l ≡ₚ x :: l.
Proof.
  induction l as [|y l IH]; simpl; [done|].
  destruct (leb x y); [done|].
  rewrite IH. apply Permutation_swap.
Qed.

Lemma stable_sort_Permutation l : stable_sort leb l ≡ₚ l.
Proof.
  induction l as [|x l IH]; simpl; [done|].
  by rewrite insert_sorted_Permutation, IH.
Qed.

Lemma elem_of_stable_sort x l : x ∈ stable_sort leb l ↔ x ∈ l.
Proof. by rewrite stable_sort_Permutation. Qed.

Hypothesis leb_total : ∀ x y, leb x y = false → leb y x = true.

Lemma insert_sorted_Sorted x l :
  Sorted (λ a b, leb a b = true) l →
  Sorted (λ a b, leb a b = true) (insert_sorted leb x l).
Proof.
  induction 1 as [|y l Hl IH Hy]; simpl.
  { repeat constructor. }
  destruct (leb x y) eqn:Hxy.
  { repeat constructor; done. }
  constructor; [done|].
  destruct Hy as [|z l Hyz]; simpl.
  { constructor. by apply leb_total. }
  destruct (leb x z); constructor; [by apply leb_total|done].
Qed.

Lemma stable_sort_Sorted l : Sorted (λ a b, leb a b = true) (stable_sort leb l).
Proof.
  induction l as [|x l IH]; simpl; [constructor|].
  by apply insert_sorted_Sorted.
Qed.
End StableSortFacts.

(** ** Object stores *)

Section StoreFacts.
Context {V : Type} (keyPath : V → option string).
Implicit Types s : gmap string V.

Lemma keyed_empty : keyed keyPath (∅ : gmap string V).
Proof. intros k v. by rewrite lookup_empty. Qed.

Lemma keyed_insert k v s :
  keyPath v = Some k → keyed keyPath s → keyed keyPath (<[k := v]> s).
Proof.
  intros Hk Hs k' v'. rewrite lookup_insert.
  case_decide; [naive_solver|]. apply Hs.
Qed.

Lemma keyed_delete k s : keyed keyPath s → keyed keyPath (delete k s).
Proof.
  intros Hs k' v'. rewrite lookup_delete.
  case_decide; [done|]. apply Hs.
Qed.

Lemma keyed_add v s : keyed keyPath s → keyed keyPath (IDB.add keyPath v s).1.
Proof.
  intros Hs. unfold IDB.add, IDB.extract_key, IDB.add_request.
  destruct (keyPath v) as [k|] eqn:Hk; simpl; [|done].
  destruct (s !! k); simpl; [done|]. by apply keyed_insert.
Qed.

Lemma keyed_put v s : keyed keyPath s → keyed keyPath (IDB.put keyPath v s).1.
Proof.
  intros Hs. unfold IDB.put, IDB.extract_key.
  destruct (keyPath v) as [k|] eqn:Hk; simpl; [|done].
  by apply keyed_insert.
Qed.

Lemma getAll_Permutation s : IDB.getAll s ≡ₚ (map_to_list s).*2.
Proof. unfold IDB.getAll. by rewrite stable_sort_Permutation. Qed.

Lemma elem_of_getAll v s : v ∈ IDB.getAll s ↔ ∃ k, s !! k = Some v.
Proof.
  rewrite getAll_Permutation, list_elem_of_fmap. split.
  - intros [[k v'] [-> Hkv]]. exists k. by apply elem_of_map_to_list.
  - intros [k Hk]. exists (k, v). split; [done|]. by apply elem_of_map_to_list.
Qed.

Lemma getAll_empty : IDB.getAll (∅ : gmap string V) = [].
Proof. unfold IDB.getAll. by rewrite map_to_list_empty. Qed.

Lemma count_zero_empty s : IDB.count s = 0 → s = ∅.
Proof. apply map_size_empty_inv. Qed.

Lemma getAll_NoDup s : keyed keyPath s → NoDup (IDB.getAll s).
Proof.
  intros Hs. rewrite getAll_Permutation.
  apply NoDup_fmap_2_strong; [|apply NoDup_map_to_list].
  intros [k1 v1] [k2 v2] H1%elem_of_map_to_list H2%elem_of_map_to_list; simpl.
  intros ->. apply Hs in H1, H2. naive_solver.
Qed.
End StoreFacts.

(** ** The functions of the library on the database *)
Section LibraryFacts.
Implicit Types d : DB.

Lemma addToQueue_fresh id now o d :
  queue_store d !! id = None →
  addToQueue id now o d =
    (set_queue_store
       (<[id := mkOp id (type o) (table o) (data o) now]> (queue_store d)) d,
     Ok id).
Proof.
  intros Hid. unfold addToQueue, await, on_queue, IDB.add, IDB.add_request; simpl.
  by rewrite Hid.
Qed.

Lemma addToQueue_taken id now o d :
  is_Some (queue_store d !! id) →
  addToQueue id now o d = (d, Err ConstraintError).
Proof.
  intros [v Hid]. unfold addToQueue, await, on_queue, IDB.add, IDB.add_request; simpl.
  rewrite Hid. by destruct d.
Qed.

(** A failed append leaves the database as it was. *)
Lemma addToQueue_Err id now o d e :
  (addToQueue id now o d).2 = Err e → (addToQueue id now o d).1 = d.
Proof.
  destruct (queue_store d !! id) as [v|] eqn:Hid.
  - rewrite addToQueue_taken by eauto. done.
  - rewrite addToQueue_fresh by done. done.
Qed.

Lemma addToQueue_leads_cache id now o d :
  leads_cache (addToQueue id now o d).1 = leads_cache d.
Proof.
  destruct (queue_store d !! id) as [v|] eqn:Hid.
  - rewrite addToQueue_taken by eauto. done.
  - rewrite addToQueue_fresh by done. done.
Qed.

Lemma addToQueue_keyed id now o d :
  keyed op_key (queue_store d) → keyed op_key (queue_store (addToQueue id now o d).1).
Proof.
  intros Hd. destruct (queue_store d !! id) as [v|] eqn:Hid.
  - rewrite addToQueue_taken by eauto. done.
  - rewrite addToQueue_fresh by done. simpl. by apply keyed_insert.
Qed.

Lemma removeFromQueue_eq id d :
  removeFromQueue id d = (set_queue_store (delete id (queue_store d)) d, Ok tt).
Proof. done. Qed.

Lemma updateCachedLead_id lead k d :
  obj_id lead = Some k →
  updateCachedLead lead d = (set_leads_cache (<[k := lead]> (leads_cache d)) d, Ok tt).
Proof.
  intros Hk. unfold updateCachedLead, await, on_cache, IDB.put, IDB.extract_key.
  by rewrite Hk.
Qed.

Lemma updateCachedLead_no_id lead d :
  obj_id lead = None → updateCachedLead lead d = (d, Err DataError).
Proof.
  intros Hk. unfold updateCachedLead, await, on_cache, IDB.put, IDB.extract_key.
  rewrite Hk. by destruct d.
Qed.

Lemma updateCachedLead_queue_store lead d :
  queue_store (updateCachedLead lead d).1 = queue_store d.
Proof.
  destruct (obj_id lead) as [k|] eqn:Hk.
  - by rewrite (updateCachedLead_id _ k).
  - by rewrite updateCachedLead_no_id.
Qed.

Lemma deleteCachedLead_eq id d :
  deleteCachedLead id d = (set_leads_cache (delete id (leads_cache d)) d, Ok tt).
Proof. done. Qed.

(** The operations read back are the logged ones, oldest first. *)
Lemma getQueuedOperations_eq d :
  getQueuedOperations d =
    (d, Ok (stable_sort timestamp_leb (IDB.getAll (queue_store d)))).
Proof. done. Qed.

Lemma timestamp_leb_total a b : timestamp_leb a b = false → timestamp_leb b a = true.
Proof. unfold timestamp_leb. lia. Qed.

Lemma replay_order_Permutation d :
  stable_sort timestamp_leb (IDB.getAll (queue_store d)) ≡ₚ IDB.getAll (queue_store d).
Proof. apply stable_sort_Permutation. Qed.

End LibraryFacts.

(** ** The replay loop *)
Section ReplayFacts.
Context {R : Type} (supabase : R → RemoteCall → R * option string).
Implicit Types (w : World R) (op : QueuedOperation) (cnt : nat * nat).

Lemma set_db_id w : set_db (db w) w = w.
Proof. by destruct w. Qed.

Lemma remote_outcome_calls op r :
  (remote_outcome supabase op r).1.2 = calls_of op.
Proof.
  unfold remote_outcome, calls_of. case_decide; [done|].
  by destruct (supabase r (call_of op)).
Qed.

Lemma processOperation_outcome op w :
  processOperation supabase op w =
    let '(r', cs, res) := remote_outcome supabase op (remote w) in
    ({| db := db w; queueCount := queueCount w; isSyncing := isSyncing w;
        toasts := toasts w; console := console w; remote := r';
        calls := calls w ++ cs |}, res).
Proof.
  unfold processOperation, remote_outcome. case_decide.
  { unfold reject. rewrite app_nil_r. by destruct w. }
  unfold call_of.
  destruct (op_type op); unfold await, from_leads;
    destruct (supabase (remote w) _) as [r' [msg|]]; done.
Qed.

Lemma sync_body_outcome op cnt w :
  sync_body supabase op cnt w =
    let st := replay_step supabase (w, cnt) op in (st.1, Ok st.2).
Proof.
  unfold sync_body, try_catch, await at 1. rewrite processOperation_outcome.
  unfold replay_step; simpl.
  destruct (remote_outcome supabase op (remote w)) as [[r' cs] [[]|e]]; done.
Qed.

Lemma sync_loop_foldl ops cnt w :
  sync_loop supabase ops cnt w =
    let st := foldl (replay_step supabase) (w, cnt) ops in (st.1, Ok st.2).
Proof.
  revert cnt w. induction ops as [|op ops IH]; intros cnt w; simpl; [done|].
  unfold await. rewrite sync_body_outcome; simpl. rewrite IH.
  by destruct (replay_step supabase (w, cnt) op).
Qed.

(** The loop does not reject: every failure is caught in its body. *)
Lemma sync_loop_Ok ops cnt w : ∃ w' cnt', sync_loop supabase ops cnt w = (w', Ok cnt').
Proof. rewrite sync_loop_foldl. eauto. Qed.

Lemma sync_loop_app ops1 ops2 cnt w :
  sync_loop supabase (ops1 ++ ops2) cnt w =
    (do cnt' <- sync_loop supabase ops1 cnt;
     sync_loop supabase ops2 cnt') w.
Proof.
  unfold await. rewrite !sync_loop_foldl, foldl_app; simpl.
  rewrite sync_loop_foldl. by destruct (foldl _ (w, cnt) ops1).
Qed.

(** What one step leaves alone, and what it adds. *)
Lemma replay_step_frame st op :
  let st' := replay_step supabase st op in
  isSyncing st'.1 = isSyncing st.1 ∧
  toasts st'.1 = toasts st.1 ∧
  queueCount st'.1 = queueCount st.1 ∧
  leads_cache (db st'.1) = leads_cache (db st.1) ∧
  calls st'.1 = calls st.1 ++ calls_of op ∧
  st'.2.1 + st'.2.2 = S (st.2.1 + st.2.2).
Proof.
  unfold replay_step. pose proof (remote_outcome_calls op (remote st.1)) as Hcs.
  destruct (remote_outcome supabase op (remote st.1)) as [[r' cs] [[]|e]];
    simpl in *; subst cs; repeat split; lia.
Qed.

Lemma replay_frame ops st :
  let st' := foldl (replay_step supabase) st ops in
  isSyncing st'.1 = isSyncing st.1 ∧
  toasts st'.1 = toasts st.1 ∧
  queueCount st'.1 = queueCount st.1 ∧
  leads_cache (db st'.1) = leads_cache (db st.1) ∧
  calls st'.1 = calls st.1 ++ flat_map calls_of ops ∧
  st'.2.1 + st'.2.2 = st.2.1 + st.2.2 + length ops.
Proof.
  revert st. induction ops as [|op ops IH]; intros st; simpl.
  { rewrite app_nil_r. repeat split; lia. }
  destruct (IH (replay_step supabase st op)) as (-> & -> & -> & -> & -> & ->).
  destruct (replay_step_frame st op) as (-> & -> & -> & -> & -> & ->).
  rewrite <-app_assoc. repeat split; lia.
Qed.
End ReplayFacts.

(** ** A whole pass *)
Section PassFacts.
Context {R : Type} (supabase : R → RemoteCall → R * option string).
Implicit Types (w : World R) (op : QueuedOperation) (cnt : nat * nat).

Lemma syncPass_replay w :
  syncPass supabase (setIsSyncing true w).1 =
    ((replay supabase w).1, Ok (replay supabase w).2).
Proof.
  unfold syncPass, await, on_db; simpl.
  rewrite sync_loop_foldl; simpl. unfold replay, replay_order; simpl.
  done.
Qed.

Lemma syncQueue_busy w : isSyncing w = true → syncQueue supabase w = (w, Ok tt).
Proof. intros Hw. unfold syncQueue. by rewrite Hw. Qed.

Lemma syncQueue_idle w :
  isSyncing w = false →
  syncQueue supabase w =
    let st := replay supabase w in
    ({| db := db st.1;
        queueCount := IDB.count (queue_store (db st.1));
        isSyncing := false;
        toasts := if (0 <? st.2.1)%nat
                  then toasts st.1 ++ [syncComplete st.2.1 st.2.2]
                  else toasts st.1;
        console := console st.1;
        remote := remote st.1;
        calls := calls st.1 |}, Ok tt).
Proof.
  intros Hw. unfold syncQueue. rewrite Hw.
  pose proof (syncPass_replay w) as Hpass.
  unfold await at 1.
  change (setIsSyncing true w) with ((setIsSyncing true w).1, Ok tt : Result unit).
  cbv iota beta.
  unfold await at 1. unfold try_catch at 1. unfold await at 1.
  rewrite Hpass.
  destruct (replay supabase w) as [w' [s f]]; simpl.
  unfold await, updateQueueCount, try_catch, await, on_db; simpl.
  destruct (0 <? s)%nat; done.
Qed.
End PassFacts.

(** ** Draining an empty queue *)
Section EmptyQueue.
Context {R : Type} (supabase : R → RemoteCall → R * option string).
Implicit Types w : World R.

Lemma replay_order_empty w : depth w = 0 → replay_order w = [].
Proof.
  intros Hw%count_zero_empty. unfold replay_order. rewrite Hw.
  by rewrite getAll_empty.
Qed.

(** C8 (amended): a drain of a queue of depth 0 makes no remote call, hands
    no result to its caller (it resolves to undefined), ends with the
    tallies successCount = 0 and failCount = 0, and leaves the log, the
    cache and the remote service as they were (no toast is shown). *)
Theorem C8_drain_of_empty_queue w :
  depth w = 0 →
  syncPass supabase w = (w, Ok (0, 0)) ∧
  (syncQueue supabase w).2 = Ok tt ∧
  calls (syncQueue supabase w).1 = calls w ∧
  remote (syncQueue supabase w).1 = remote w ∧
  db (syncQueue supabase w).1 = db w ∧
  toasts (syncQueue supabase w).1 = toasts w.
Proof.
  intros Hw. split.
  { unfold syncPass, await, on_db; simpl.
    fold (replay_order w). rewrite (replay_order_empty w Hw); simpl.
    by rewrite set_db_id. }
  destruct (isSyncing w) eqn:Hs.
  { by rewrite syncQueue_busy. }
  rewrite syncQueue_idle by done. unfold replay.
  rewrite (replay_order_empty w Hw); simpl. done.
Qed.
End EmptyQueue.

(** The theorem at the empty idle world. *)
Lemma C8_witness :
  depth idle0 = 0 ∧ syncPass always_ok idle0 = (idle0, Ok (0, 0)) ∧
  calls (syncQueue always_ok idle0).1 = [].
Proof.
  split; [reflexivity|].
  destruct (C8_drain_of_empty_queue always_ok idle0) as (H1 & _ & H2 & _).
  { reflexivity. }
  split; [exact H1 | exact H2].
Defined.

(** C8 as stated fails: the drain of an empty queue returns no result.
    Called in the empty idle world, syncQueue resolves to undefined and
    emits neither a toast nor a console line; the tallies of the pass stay
    inside it. *)
Lemma C8_counterexample : ¬ empty_drain_returns_result always_ok idle0.
Proof.
  intros Hclaim. destruct (Hclaim eq_refl) as [Hres _].
  destruct Hres as [H|[H|H]]; by apply H.
Qed.

(** ** Re-entrancy *)
Section Reentrancy.
Context {R : Type} (supabase : R → RemoteCall → R * option string).
Implicit Types w : World R.

Lemma sync_loop_isSyncing ops cnt w :
  isSyncing (sync_loop supabase ops cnt w).1 = isSyncing w.
Proof.
  rewrite sync_loop_foldl; simpl.
  by destruct (replay_frame supabase ops (w, cnt)) as (-> & _).
Qed.

(** A call of syncQueue that sees isSyncing = true returns at once,
    resolving to undefined like any other call, with the world unchanged:
    no second pass, no remote call, no toast.  Placed anywhere in a
    running pass (after [ops1], before [ops2]) it leaves the pass and its
    final state as they are without the call. *)
Theorem guarded_call_is_noop w :
  isSyncing w = true →
  syncQueue supabase w = (w, Ok tt) ∧
  ∀ ops1 ops2 cnt,
    (do cnt' <- sync_loop supabase ops1 cnt;
     do_ syncQueue supabase;
     sync_loop supabase ops2 cnt') w
    = sync_loop supabase (ops1 ++ ops2) cnt w.
Proof.
  intros Hw. split; [by apply syncQueue_busy|].
  intros ops1 ops2 cnt. rewrite sync_loop_app. unfold await.
  pose proof (sync_loop_isSyncing ops1 cnt w) as Hmid.
  destruct (sync_loop supabase ops1 cnt w) as [w1 [cnt1|e]]; [|done].
  simpl in Hmid. rewrite syncQueue_busy by congruence. done.
Qed.

(** The guard reads the flag of the instance in which syncQueue is called.
    Called in an instance whose flag is not set, syncQueue runs a pass
    whatever the flag of the first instance is: every logged operation is
    dispatched, and the flag of the first instance is left as it was. *)
Lemma other_instance_starts_a_pass (n : nat) w :
  let out := in_other_instance (n, false) (syncQueue supabase) w in
  out.2 = Ok tt ∧
  isSyncing out.1 = isSyncing w ∧
  calls out.1 = calls w ++ flat_map calls_of (replay_order w).
Proof.
  unfold in_other_instance.
  rewrite (syncQueue_idle supabase (seen_by (n, false) w) eq_refl); simpl.
  split; [done|]. split; [done|]. unfold replay.
  by destruct (replay_frame supabase (replay_order (seen_by (n, false) w))
                 ((setIsSyncing true (seen_by (n, false) w)).1, (0, 0)))
    as (_ & _ & _ & _ & -> & _).
Qed.
End Reentrancy.

(** C5: the guard of syncQueue does not keep a second pass from starting.
    A pass started in one instance of the hook is in flight over three
    logged operations: its flag is set and it has read the log.  A call
    of syncQueue in another instance, whose own flag is not set and whose
    count is 3, does not return at once: it dispatches the three
    operations, removes them and reports three synced changes, while the
    flag of the first instance stays set; the pass in flight then
    dispatches the three operations it has read once more, so the remote
    service receives every operation twice. *)
Theorem C5_second_pass_while_one_is_in_flight :
  let second := in_other_instance (3, false) (syncQueue always_ok) three_busy in
  let first := sync_loop always_ok (replay_order three_busy) (0, 0) second.1 in
  isSyncing three_busy = true ∧
  calls three_busy = [] ∧
  second.2 = Ok tt ∧
  isSyncing second.1 = true ∧
  calls second.1 = three_calls ∧
  queue_store (db second.1) = ∅ ∧
  last (toasts second.1) = Some (syncComplete 3 0) ∧
  first.2 = Ok (3, 0) ∧
  calls first.1 = three_calls ++ three_calls.
Proof. vm_compute. repeat split; reflexivity. Qed.

(** The theorem at a world in which a pass over three operations runs. *)
Lemma guarded_call_witness :
  isSyncing three_busy = true ∧
  syncQueue always_ok three_busy = (three_busy, Ok tt).
Proof.
  split; [reflexivity|].
  apply (guarded_call_is_noop always_ok three_busy). reflexivity.
Defined.

(** The refused call gives no indication.  While a pass runs over three
    operations, syncQueue resolves to undefined and emits neither a toast
    nor a console line. *)
Lemma guarded_call_gives_no_indication :
  ¬ refuses_with_indication always_ok three_busy.
Proof.
  intros Hclaim. destruct (Hclaim eq_refl) as [Hsig _].
  rewrite syncQueue_busy in Hsig by reflexivity.
  destruct Hsig as [H|[H|H]]; by apply H.
Qed.

(** ** The order of replay *)


Section ReplayOrder.
Context {R : Type} (supabase : R → RemoteCall → R * option string).
Implicit Types w : World R.

Lemma syncQueue_calls w :
  isSyncing w = false →
  calls (syncQueue supabase w).1 = calls w ++ flat_map calls_of (replay_order w).
Proof.
  intros Hw. rewrite syncQueue_idle by done. simpl. unfold replay.
  by destruct (replay_frame supabase (replay_order w)
                 ((setIsSyncing true w).1, (0, 0))) as (_ & _ & _ & _ & -> & _).
Qed.

End ReplayOrder.



(** ** Partial failure *)

(** Removing the first and the last of three logged operations leaves the
    middle one. *)
Lemma log_keeps_middle (q : gmap string QueuedOperation) (A B C : QueuedOperation) :
  keyed op_key q → IDB.getAll q ≡ₚ [A; B; C] →
  delete (op_id C) (delete (op_id A) q) = {[op_id B := B]}.
Proof.
  intros Hq Hperm.
  assert (∀ v, v ∈ IDB.getAll q ↔ v = A ∨ v = B ∨ v = C) as Hin.
  { intros v. rewrite Hperm, !elem_of_cons, elem_of_nil. tauto. }
  assert (∀ v, (v = A ∨ v = B ∨ v = C) → q !! op_id v = Some v) as Hlook.
  { intros v Hv. apply Hin, elem_of_getAll in Hv as [k Hk].
    pose proof (Hq _ _ Hk) as Hkey. unfold op_key in Hkey. congruence. }
  assert (NoDup [A; B; C]) as Hnd.
  { rewrite <-Hperm. by eapply getAll_NoDup. }
  assert (∀ v1 v2, (v1 = A ∨ v1 = B ∨ v1 = C) → (v2 = A ∨ v2 = B ∨ v2 = C) →
                   op_id v1 = op_id v2 → v1 = v2) as Hinj.
  { intros v1 v2 H1 H2 Heq. apply Hlook in H1, H2. congruence. }
  apply NoDup_cons in Hnd as [HA Hnd]. apply NoDup_cons in Hnd as [HB _].
  assert (op_id A ≠ op_id B) as HAB.
  { intros Heq. apply Hinj in Heq; [|auto..]. apply HA. subst. by left. }
  assert (op_id C ≠ op_id B) as HCB.
  { intros Heq. apply Hinj in Heq; [|auto..]. apply HB. subst. by left. }
  apply map_eq. intros k.
  destruct (decide (k = op_id B)) as [->|HkB].
  { rewrite lookup_singleton_eq, !lookup_delete_ne by done. apply Hlook. auto. }
  rewrite lookup_singleton_ne by done.
  rewrite !lookup_delete. repeat case_decide; try done.
  destruct (q !! k) as [v|] eqn:Hk; [|done].
  assert (v ∈ IDB.getAll q) as Hv by (apply elem_of_getAll; eauto).
  apply Hin in Hv. apply Hq in Hk. unfold op_key in Hk.
  destruct Hv as [-> | [-> | ->]]; congruence.
Qed.

Section PartialFailure.
Context {R : Type} (supabase : R → RemoteCall → R * option string).
Implicit Types w : World R.

(** C2: when the log reads back as [A; B; C] and dispatching them in turn
    succeeds for A, fails for B and succeeds for C, one pass removes A and
    C and leaves exactly B logged; B was dispatched once and C after it;
    the tallies are successCount = 2 and failCount = 1, which the toast
    of the pass reports. *)
Theorem C2_partial_failure w A B C r1 r2 r3 cA cB cC e :
  isSyncing w = false →
  keyed op_key (queue_store (db w)) →
  (getQueuedOperations (db w)).2 = Ok [A; B; C] →
  remote_outcome supabase A (remote w) = (r1, cA, Ok tt) →
  remote_outcome supabase B r1 = (r2, cB, Err e) →
  remote_outcome supabase C r2 = (r3, cC, Ok tt) →
  let w' := (syncQueue supabase w).1 in
  (syncPass supabase (setIsSyncing true w).1).2 = Ok (2, 1) ∧
  queue_store (db w') = {[op_id B := B]} ∧
  IDB.getAll (queue_store (db w')) = [B] ∧
  calls w' = calls w ++ cA ++ cB ++ cC ∧
  remote w' = r3 ∧
  console w' = console w ++ [FailedToSync B e] ∧
  toasts w' = toasts w ++ [syncComplete 2 1] ∧
  description (syncComplete 2 1) = "Successfully synced 2 changes, 1 failed" ∧
  queueCount w' = 1.
Proof.
  intros Hw Hkeyed Hops HA HB HC w'.
  assert (replay_order w = [A; B; C]) as Horder.
  { rewrite getQueuedOperations_eq in Hops. simpl in Hops.
    unfold replay_order. congruence. }
  assert (replay supabase w =
            (replayed C r3 cC (Ok tt)
               (replayed B r2 cB (Err e)
                  (replayed A r1 cA (Ok tt) (setIsSyncing true w).1)),
             (2, 1))) as Hreplay.
  { unfold replay. rewrite Horder. simpl.
    unfold replay_step at 3; simpl. rewrite HA; simpl.
    unfold replay_step at 2; simpl. rewrite HB; simpl.
    unfold replay_step at 1; simpl. rewrite HC; simpl. done. }
  assert (delete (op_id C) (delete (op_id A) (queue_store (db w)))
          = {[op_id B := B]}) as Hlog.
  { apply log_keeps_middle; [done|].
    rewrite <-Horder. symmetry. apply replay_order_Permutation. }
  split.
  { rewrite syncPass_replay. simpl. by rewrite Hreplay. }
  subst w'. rewrite syncQueue_idle by done. rewrite Hreplay. simpl.
  rewrite Hlog. split; [done|]. split.
  { unfold IDB.getAll. by rewrite map_to_list_singleton. }
  split; [by rewrite <-!app_assoc|].
  split; [done|]. split; [done|]. split; [done|]. split; [done|].
  unfold IDB.count. by rewrite map_size_singleton.
Qed.
End PartialFailure.

(** The theorem at the three operations enqueued above, with a remote
    service that rejects the delete: the delete stays logged. *)
Lemma C2_witness :
  queue_store (db (syncQueue rejects_delete three_queued).1) = {["b" := opB]} ∧
  (syncPass rejects_delete (setIsSyncing true three_queued).1).2 = Ok (2, 1).
Proof.
  destruct (C2_partial_failure rejects_delete three_queued opA opB opC
              tt tt tt [call_of opA] [call_of opB] [call_of opC]
              (RemoteRejected "row not found"))
    as (Hcnt & Hlog & _).
  - reflexivity.
  - apply (bool_decide_unpack _). vm_compute. reflexivity.
  - vm_compute. reflexivity.
  - reflexivity.
  - reflexivity.
  - reflexivity.
  - split; [exact Hlog | exact Hcnt].
Defined.

(** ** The enqueue functions *)
Section EnqueueFacts.
Context {R : Type}.
Implicit Types w : World R.

Lemma updateQueueCount_eq w :
  updateQueueCount w =
    ({| db := db w; queueCount := IDB.count (queue_store (db w));
        isSyncing := isSyncing w; toasts := toasts w; console := console w;
        remote := remote w; calls := calls w |}, Ok tt).
Proof.
  unfold updateQueueCount, try_catch, await, on_db; simpl. done.
Qed.

(** The first step of every enqueue function *)
Lemma await_addToQueue_taken {A} id now o (k : string → Async (World R) A) w :
  is_Some (queue_store (db w) !! id) →
  (do x <- on_db (addToQueue id now o); k x) w = (w, Err ConstraintError).
Proof.
  intros Hid. unfold await, on_db. rewrite addToQueue_taken by done.
  by rewrite set_db_id.
Qed.

Lemma await_addToQueue_fresh {A} id now o (k : string → Async (World R) A) w :
  queue_store (db w) !! id = None →
  (do x <- on_db (addToQueue id now o); k x) w =
    k id (set_db (set_queue_store
                    (<[id := mkOp id (type o) (table o) (data o) now]>
                       (queue_store (db w))) (db w)) w).
Proof. intros Hid. unfold await, on_db. by rewrite addToQueue_fresh. Qed.

Lemma queueInsert_taken uuid op_uuid now table data w :
  is_Some (queue_store (db w) !! op_uuid) →
  queueInsert uuid op_uuid now table data w = (w, Err ConstraintError).
Proof. apply await_addToQueue_taken. Qed.

Lemma queueUpdate_taken op_uuid now table data w :
  is_Some (queue_store (db w) !! op_uuid) →
  queueUpdate op_uuid now table data w = (w, Err ConstraintError).
Proof. apply await_addToQueue_taken. Qed.

Lemma queueDelete_taken op_uuid now table id w :
  is_Some (queue_store (db w) !! op_uuid) →
  queueDelete op_uuid now table id w = (w, Err ConstraintError).
Proof. apply await_addToQueue_taken. Qed.

(** The result of an insert whose operation id is fresh: the payload
    logged is [data] as the caller gave it; the entity cached is [data]
    with the temporary id. *)
Lemma queueInsert_fresh uuid op_uuid now table data w :
  queue_store (db w) !! op_uuid = None →
  queueInsert uuid op_uuid now table data w =
    ({| db := {| queue_store :=
                   <[op_uuid := mkOp op_uuid OpInsert table data now]>
                     (queue_store (db w));
                 leads_cache :=
                   <["temp_" +:+ uuid := <["id" := "temp_" +:+ uuid]> data]>
                     (leads_cache (db w)) |};
        queueCount := S (IDB.count (queue_store (db w)));
        isSyncing := isSyncing w;
        toasts := toasts w ++ [savedOffline];
        console := console w;
        remote := remote w;
        calls := calls w |}, Ok ("temp_" +:+ uuid)).
Proof.
  intros Hid. unfold queueInsert. rewrite await_addToQueue_fresh by done.
  unfold await at 1, on_db at 1.
  rewrite (updateCachedLead_id _ ("temp_" +:+ uuid))
    by (unfold obj_id; apply lookup_insert_eq).
  simpl. unfold await at 1. rewrite updateQueueCount_eq. simpl.
  unfold IDB.count. by rewrite map_size_insert_None.
Qed.

Lemma queueUpdate_fresh op_uuid now table data k w :
  queue_store (db w) !! op_uuid = None →
  obj_id data = Some k →
  queueUpdate op_uuid now table data w =
    ({| db := {| queue_store :=
                   <[op_uuid := mkOp op_uuid OpUpdate table data now]>
                     (queue_store (db w));
                 leads_cache := <[k := data]> (leads_cache (db w)) |};
        queueCount := S (IDB.count (queue_store (db w)));
        isSyncing := isSyncing w;
        toasts := toasts w ++ [savedOffline];
        console := console w;
        remote := remote w;
        calls := calls w |}, Ok tt).
Proof.
  intros Hid Hk. unfold queueUpdate. rewrite await_addToQueue_fresh by done.
  unfold await at 1, on_db at 1. rewrite (updateCachedLead_id _ k) by done.
  simpl. unfold await at 1. rewrite updateQueueCount_eq. simpl.
  unfold IDB.count. by rewrite map_size_insert_None.
Qed.

(** An update whose data has no id is logged, then rejected by the cache:
    the count is not refreshed. *)
Lemma queueUpdate_fresh_no_id op_uuid now table data w :
  queue_store (db w) !! op_uuid = None →
  obj_id data = None →
  queueUpdate op_uuid now table data w =
    (set_db (set_queue_store
               (<[op_uuid := mkOp op_uuid OpUpdate table data now]>
                  (queue_store (db w))) (db w)) w,
     Err DataError).
Proof.
  intros Hid Hk. unfold queueUpdate. rewrite await_addToQueue_fresh by done.
  unfold await at 1, on_db at 1. rewrite updateCachedLead_no_id by done.
  done.
Qed.

Lemma queueDelete_fresh op_uuid now table id w :
  queue_store (db w) !! op_uuid = None →
  queueDelete op_uuid now table id w =
    ({| db := {| queue_store :=
                   <[op_uuid := mkOp op_uuid OpDelete table {["id" := id]} now]>
                     (queue_store (db w));
                 leads_cache := delete id (leads_cache (db w)) |};
        queueCount := S (IDB.count (queue_store (db w)));
        isSyncing := isSyncing w;
        toasts := toasts w ++ [deletedOffline];
        console := console w;
        remote := remote w;
        calls := calls w |}, Ok tt).
Proof.
  intros Hid. unfold queueDelete. rewrite await_addToQueue_fresh by done.
  unfold await at 1, on_db at 1. rewrite deleteCachedLead_eq.
  simpl. unfold await at 1. rewrite updateQueueCount_eq. simpl.
  unfold IDB.count. by rewrite map_size_insert_None.
Qed.
End EnqueueFacts.

(** ** Log first, cache second *)
Section LogBeforeCache.
Context {R : Type}.
Implicit Types w : World R.

(** C10: when the append to the log fails, each of queueInsert,
    queueUpdate and queueDelete rejects with the error of the append and
    leaves the cache as it was: the optimistic upsert or evict has not
    run. *)
Theorem C10_failed_append_leaves_cache (q : Enqueue) w e :
  (addToQueue (op_id (logged q)) (op_timestamp (logged q)) (payload q) (db w)).2
    = Err e →
  match q with
  | QInsert uuid op_uuid now table data =>
      let out := queueInsert uuid op_uuid now table data w in
      out.2 = Err e ∧ leads_cache (db out.1) = leads_cache (db w) ∧ out.1 = w
  | QUpdate op_uuid now table data =>
      let out := queueUpdate op_uuid now table data w in
      out.2 = Err e ∧ leads_cache (db out.1) = leads_cache (db w) ∧ out.1 = w
  | QDelete op_uuid now table id =>
      let out := queueDelete op_uuid now table id w in
      out.2 = Err e ∧ leads_cache (db out.1) = leads_cache (db w) ∧ out.1 = w
  end.
Proof.
  intros Hfail.
  destruct (queue_store (db w) !! op_id (logged q)) as [v|] eqn:Hid.
  - rewrite addToQueue_taken in Hfail by eauto. simpl in Hfail.
    injection Hfail as <-.
    destruct q; simpl in *.
    + rewrite queueInsert_taken by eauto. done.
    + rewrite queueUpdate_taken by eauto. done.
    + rewrite queueDelete_taken by eauto. done.
  - rewrite addToQueue_fresh in Hfail; [discriminate|done].
Qed.
End LogBeforeCache.

(** The theorem at an insert whose operation id is already logged. *)
Lemma C10_witness :
  (queueInsert "t2" "a" 2 "leads" won7 one_queued).2 = Err ConstraintError ∧
  leads_cache (db (queueInsert "t2" "a" 2 "leads" won7 one_queued).1)
    = leads_cache (db one_queued).
Proof.
  destruct (C10_failed_append_leaves_cache
              (QInsert "t2" "a" 2 "leads" won7) one_queued ConstraintError)
    as (Hres & Hcache & _).
  - vm_compute. reflexivity.
  - split; [exact Hres | exact Hcache].
Defined.

(** ** The temporary identifier of an insert *)

(** C4: queueInsert of [{client_name: "Acme"}] into the empty world, with
    the UUIDs "abc" and "u1" drawn at time 5.  The temporary id "temp_abc"
    is returned, the entity is cached under it with the id attached, and
    the remote service is not called; but the payload of the logged
    operation is the caller's data, without the temporary id. *)
Theorem C4_insert_logs_payload_without_temp_id :
  let out := queueInsert "abc" "u1" 5 "leads" acme idle0 in
  out.2 = Ok "temp_abc" ∧
  leads_cache (db out.1) = {["temp_abc" := <["id" := "temp_abc"]> acme]} ∧
  calls out.1 = [] ∧
  depth out.1 = 1 ∧
  queue_store (db out.1) = {["u1" := mkOp "u1" OpInsert "leads" acme 5]} ∧
  obj_id (op_data (mkOp "u1" OpInsert "leads" acme 5)) = None.
Proof.
  rewrite queueInsert_fresh by done. simpl.
  repeat split; done.
Qed.

(** ** The exposed depth *)
Section ExposedDepth.
Context {R : Type} (supabase : R → RemoteCall → R * option string).
Implicit Types w : World R.

End ExposedDepth.


(** ** The cache *)
Section CacheFacts.
Implicit Types (d : DB) (s : gmap string Obj) (reqs : list (string * Obj)).

Lemma readAll_eq d : readAll d = IDB.getAll (leads_cache d).
Proof. done. Qed.

(** Every request placed by the [forEach] carries the id of its lead. *)
Lemma place_adds_keys leads :
  Forall (λ kv, obj_id kv.2 = Some kv.1) (place_adds leads).1.
Proof.
  induction leads as [|lead leads IH]; simpl; [constructor|].
  unfold IDB.extract_key. destruct (obj_id lead) as [k|] eqn:Hk; simpl;
    [|constructor].
  destruct (place_adds leads) as [reqs threw]. simpl in *. by constructor.
Qed.

(** When every lead has an id, the [forEach] does not throw and places
    one request per lead. *)
Lemma place_adds_all leads :
  Forall (λ lead, is_Some (obj_id lead)) leads →
  (place_adds leads).2 = false ∧
  (place_adds leads).1.*2 = leads ∧
  (place_adds leads).1.*1 = lead_ids leads.
Proof.
  unfold lead_ids.
  induction 1 as [|lead leads [k Hk] _ (IH1 & IH2 & IH3)]; simpl; [done|].
  unfold IDB.extract_key. rewrite Hk.
  destruct (place_adds leads) as [reqs threw]. simpl in *.
  split; [done|]. split; f_equal; [exact IH2 | exact IH3].
Qed.

(** A request whose key is taken aborts the transaction. *)
Lemma run_adds_taken reqs s k :
  k ∈ reqs.*1 → is_Some (s !! k) → run_adds reqs s = None.
Proof.
  revert s. induction reqs as [|[k' v] reqs IH]; intros s Hin Hk; simpl in *.
  { by apply elem_of_nil in Hin. }
  unfold IDB.add_request. destruct (s !! k') as [v'|] eqn:Hk'; [done|].
  apply elem_of_cons in Hin as [->|Hin].
  { rewrite Hk' in Hk. by destruct Hk. }
  apply IH; [done|]. rewrite lookup_insert_ne; [done|].
  intros ->. rewrite Hk' in Hk. by destruct Hk.
Qed.

Lemma run_adds_dup reqs s : ¬ NoDup reqs.*1 → run_adds reqs s = None.
Proof.
  revert s. induction reqs as [|[k v] reqs IH]; intros s Hdup; simpl in *.
  { destruct Hdup. constructor. }
  unfold IDB.add_request. destruct (s !! k) as [v'|] eqn:Hk; [done|].
  destruct (decide (k ∈ reqs.*1)) as [Hin|Hnotin].
  { apply (run_adds_taken _ _ k); [done|]. rewrite lookup_insert_eq. eauto. }
  apply IH. intros Hnd. apply Hdup. by constructor.
Qed.

(** Requests with distinct keys, none of them taken, all succeed. *)
Lemma run_adds_fresh reqs s :
  NoDup reqs.*1 → (∀ k, k ∈ reqs.*1 → s !! k = None) →
  run_adds reqs s = Some (list_to_map reqs ∪ s).
Proof.
  revert s. induction reqs as [|[k v] reqs IH]; intros s Hnd Hfresh; simpl in *.
  { by rewrite (left_id_L ∅ (∪)). }
  apply NoDup_cons in Hnd as [Hk Hnd].
  unfold IDB.add_request. rewrite Hfresh by left.
  rewrite IH; [|done|].
  - f_equal. rewrite <-insert_union_l.
    rewrite <-insert_union_r; [done|]. by apply not_elem_of_list_to_map_1.
  - intros k' Hk'. rewrite lookup_insert_ne; [|by intros ->].
    apply Hfresh. by right.
Qed.

(** [cacheLeads] of leads that all have an id: either all of them replace
    the cache, or a key conflict aborts the transaction. *)
Lemma cacheLeads_distinct leads d :
  Forall (λ lead, is_Some (obj_id lead)) leads →
  NoDup (lead_ids leads) →
  cacheLeads leads d =
    (set_leads_cache (list_to_map (place_adds leads).1) d, Ok tt).
Proof.
  intros Hids Hnd. destruct (place_adds_all leads Hids) as (Hthrew & _ & Hkeys).
  unfold cacheLeads. destruct (place_adds leads) as [reqs threw]; simpl in *.
  subst threw. unfold IDB.clear. rewrite run_adds_fresh.
  - by rewrite (right_id_L ∅ (∪)).
  - by rewrite Hkeys.
  - intros k _. apply lookup_empty.
Qed.

Lemma cacheLeads_conflict leads d :
  Forall (λ lead, is_Some (obj_id lead)) leads →
  ¬ NoDup (lead_ids leads) →
  cacheLeads leads d = (d, Err ConstraintError).
Proof.
  intros Hids Hnd. destruct (place_adds_all leads Hids) as (Hthrew & _ & Hkeys).
  unfold cacheLeads. destruct (place_adds leads) as [reqs threw]; simpl in *.
  subst threw. rewrite run_adds_dup; [done|]. by rewrite Hkeys.
Qed.

Lemma elem_of_replaced leads o :
  Forall (λ lead, is_Some (obj_id lead)) leads →
  NoDup (lead_ids leads) →
  o ∈ IDB.getAll (list_to_map (place_adds leads).1 : gmap string Obj) ↔ o ∈ leads.
Proof.
  intros Hids Hnd. destruct (place_adds_all leads Hids) as (_ & Hleads & Hkeys).
  rewrite <-Hkeys in Hnd. clear Hkeys Hids.
  destruct (place_adds leads) as [reqs threw]; simpl in *. subst leads.
  rewrite elem_of_getAll, list_elem_of_fmap. split.
  - intros [k Hk]. exists (k, o). split; [done|].
    by apply elem_of_list_to_map_2.
  - intros [[k o'] [-> Hin]]. exists k. by apply elem_of_list_to_map_1.
Qed.

(** The cache stays keyed under the three functions that write it. *)
Lemma updateCachedLead_keyed lead d :
  keyed obj_id (leads_cache d) → keyed obj_id (leads_cache (updateCachedLead lead d).1).
Proof.
  intros Hd. destruct (obj_id lead) as [k|] eqn:Hk.
  - rewrite (updateCachedLead_id _ k) by done. simpl. by apply keyed_insert.
  - by rewrite updateCachedLead_no_id.
Qed.

Lemma deleteCachedLead_keyed id d :
  keyed obj_id (leads_cache d) → keyed obj_id (leads_cache (deleteCachedLead id d).1).
Proof. intros Hd. rewrite deleteCachedLead_eq. simpl. by apply keyed_delete. Qed.

Lemma run_adds_keyed reqs s s' :
  Forall (λ kv, obj_id kv.2 = Some kv.1) reqs →
  keyed obj_id s → run_adds reqs s = Some s' → keyed obj_id s'.
Proof.
  intros Hreqs. revert s. induction Hreqs as [|[k v] reqs Hkv _ IH];
    intros s Hs Hrun; simpl in *.
  { by injection Hrun as <-. }
  unfold IDB.add_request in Hrun. destruct (s !! k); [done|].
  apply IH in Hrun; [done|]. by apply keyed_insert.
Qed.

Lemma cacheLeads_keyed leads d :
  keyed obj_id (leads_cache d) → keyed obj_id (leads_cache (cacheLeads leads d).1).
Proof.
  intros Hd. unfold cacheLeads.
  pose proof (place_adds_keys leads) as Hkeys.
  destruct (place_adds leads) as [reqs threw]; simpl in *.
  destruct (run_adds reqs (IDB.clear (leads_cache d))) as [s'|] eqn:Hrun; [|done].
  simpl. eapply run_adds_keyed; [done| |done]. apply keyed_empty.
Qed.
End CacheFacts.

(** ** The key invariant

    Both stores are keyed in the empty database and stay keyed under every
    function of the library and of the hook, so every state the program
    reaches is keyed. *)
Section KeyInvariant.
Context {R : Type} (supabase : R → RemoteCall → R * option string).
Implicit Types (d : DB) (w : World R).

Lemma db_keyed_empty : db_keyed (mkDB ∅ ∅).
Proof. split; apply keyed_empty. Qed.

Lemma addToQueue_db_keyed id now o d :
  db_keyed d → db_keyed (addToQueue id now o d).1.
Proof.
  intros [Hq Hc]. split; [by apply addToQueue_keyed|].
  by rewrite addToQueue_leads_cache.
Qed.

Lemma removeFromQueue_db_keyed id d :
  db_keyed d → db_keyed (removeFromQueue id d).1.
Proof. intros [Hq Hc]. split; [by apply keyed_delete|done]. Qed.

Lemma updateCachedLead_db_keyed lead d :
  db_keyed d → db_keyed (updateCachedLead lead d).1.
Proof.
  intros [Hq Hc]. split; [|by apply updateCachedLead_keyed].
  by rewrite updateCachedLead_queue_store.
Qed.

Lemma deleteCachedLead_db_keyed id d :
  db_keyed d → db_keyed (deleteCachedLead id d).1.
Proof. intros [Hq Hc]. split; [done|by apply keyed_delete]. Qed.

Lemma cacheLeads_db_keyed leads d :
  db_keyed d → db_keyed (cacheLeads leads d).1.
Proof.
  intros [Hq Hc]. split; [|by apply cacheLeads_keyed].
  unfold cacheLeads. destruct (place_adds leads) as [reqs threw].
  by destruct (run_adds reqs (IDB.clear (leads_cache d))).
Qed.

Lemma enqueue_db_keyed q w : db_keyed (db w) → db_keyed (db (enqueue q w).1).
Proof.
  intros [Hq Hc].
  destruct (queue_store (db w) !! op_id (logged q)) as [v|] eqn:Hid.
  { destruct q; simpl in *.
    - unfold await. by rewrite queueInsert_taken by eauto.
    - by rewrite queueUpdate_taken by eauto.
    - by rewrite queueDelete_taken by eauto. }
  destruct q as [uuid op_uuid now table data|op_uuid now table data|
                 op_uuid now table id]; simpl in *.
  - unfold await. rewrite queueInsert_fresh by done. simpl.
    split; simpl; apply keyed_insert; try done.
    unfold obj_id. apply lookup_insert_eq.
  - destruct (obj_id data) as [k|] eqn:Hk.
    + rewrite (queueUpdate_fresh _ _ _ _ k) by done. simpl.
      split; simpl; by apply keyed_insert.
    + rewrite queueUpdate_fresh_no_id by done. simpl.
      split; simpl; [by apply keyed_insert|done].
  - rewrite queueDelete_fresh by done. simpl.
    split; simpl; [by apply keyed_insert|by apply keyed_delete].
Qed.

Lemma replay_db_keyed ops st :
  db_keyed (db st.1) → db_keyed (db (foldl (replay_step supabase) st ops).1).
Proof.
  revert st. induction ops as [|op ops IH]; intros st Hst; simpl; [done|].
  apply IH. unfold replay_step.
  destruct (remote_outcome supabase op (remote st.1)) as [[r' cs] [[]|e]];
    simpl; [|done].
  destruct Hst as [Hq Hc]. split; [by apply keyed_delete|done].
Qed.

Lemma syncQueue_db_keyed w :
  db_keyed (db w) → db_keyed (db (syncQueue supabase w).1).
Proof.
  intros Hw. destruct (isSyncing w) eqn:Hs.
  { by rewrite syncQueue_busy. }
  rewrite syncQueue_idle by done. simpl. by apply replay_db_keyed.
Qed.
End KeyInvariant.

(** C6 (amended): for every keyed cache, an upserted entity that carries
    an id is read back; after an evict no entity read back has the evicted
    id; and after cacheLeads of two entities that carry distinct ids,
    exactly these two are read back, whatever the cache held before. *)
Theorem C6_cache_consistency (d : DB) (e : Obj) (id : string) (x y : Obj) :
  keyed obj_id (leads_cache d) →
  is_Some (obj_id e) →
  is_Some (obj_id x) → is_Some (obj_id y) → obj_id x ≠ obj_id y →
  cache_consistent d e id x y ∧ readAll (cacheLeads [x; y] d).1 ≡ₚ [x; y].
Proof.
  intros Hd [k Hk] Hx Hy Hxy.
  assert (Forall (λ lead, is_Some (obj_id lead)) [x; y]) as Hids
    by (repeat constructor; done).
  assert (NoDup (lead_ids [x; y])) as Hnd.
  { unfold lead_ids. destruct Hx as [kx Hx], Hy as [ky Hy]. simpl.
    rewrite Hx, Hy. simpl. rewrite Hx, Hy in Hxy.
    apply NoDup_cons. split; [|apply NoDup_singleton].
    rewrite list_elem_of_singleton. congruence. }
  assert (∀ o, o ∈ readAll (cacheLeads [x; y] d).1 ↔ o = x ∨ o = y) as Hread.
  { intros o. rewrite cacheLeads_distinct by done. rewrite readAll_eq.
    cbn [fst leads_cache set_leads_cache].
    rewrite elem_of_replaced by done.
    rewrite !elem_of_cons, elem_of_nil. tauto. }
  split; [split; [|split]|].
  - rewrite (updateCachedLead_id _ k) by done. rewrite readAll_eq. simpl.
    apply elem_of_getAll. exists k. apply lookup_insert_eq.
  - intros o. rewrite deleteCachedLead_eq, readAll_eq. simpl.
    intros [k' Hk']%elem_of_getAll.
    apply lookup_delete_Some in Hk' as [Hne Hk']. apply Hd in Hk'. congruence.
  - exact Hread.
  - apply NoDup_Permutation.
    + rewrite readAll_eq. eapply getAll_NoDup. by apply cacheLeads_keyed.
    + apply NoDup_cons. split; [|apply NoDup_singleton].
      rewrite list_elem_of_singleton. congruence.
    + intros o. rewrite Hread, !elem_of_cons, elem_of_nil. tauto.
Qed.

(** The theorem at a cache that holds lead 9: lead 2 is upserted, lead 9
    evicted, and the cache replaced by leads 1 and 2. *)
Lemma C6_witness :
  cache_consistent cached9 lead2 "9" lead1a lead2 ∧
  readAll (cacheLeads [lead1a; lead2] cached9).1 ≡ₚ [lead1a; lead2].
Proof.
  apply (C6_cache_consistency cached9 lead2 "9" lead1a lead2).
  - apply (bool_decide_unpack _). vm_compute. reflexivity.
  - vm_compute. eauto.
  - vm_compute. eauto.
  - vm_compute. eauto.
  - vm_compute. discriminate.
Defined.

(** C6 as stated fails: cacheLeads of two entities with the same id
    rejects and the cache still holds what it held before. *)
Lemma C6_counterexample :
  keyed obj_id (leads_cache cached9) ∧
  cacheLeads [lead1a; lead1b] cached9 = (cached9, Err ConstraintError) ∧
  readAll (cacheLeads [lead1a; lead1b] cached9).1 = [lead9] ∧
  ¬ cache_consistent cached9 lead2 "9" lead1a lead1b.
Proof.
  assert (readAll (cacheLeads [lead1a; lead1b] cached9).1 = [lead9]) as Hread
    by (vm_compute; reflexivity).
  split; [apply (bool_decide_unpack _); vm_compute; reflexivity|].
  split; [vm_compute; reflexivity|].
  split; [exact Hread|].
  intros (_ & _ & Hxy). specialize (Hxy lead1a). rewrite Hread in Hxy.
  assert (lead1a ∈ [lead9]) as Hin by (apply Hxy; by left).
  apply list_elem_of_singleton in Hin.
  apply (f_equal (λ o, obj_id o)) in Hin. vm_compute in Hin. discriminate.
Qed.

(** C9 (amended): cacheLeads of entities that all carry an id either
    replaces the whole cache by them (their ids are pairwise distinct) or
    rejects with the cache, and the whole database, exactly as before (two
    of them have the same id): the clear and the insertions take effect
    together or not at all. *)
Theorem C9_replaceAll_all_or_nothing (d : DB) (leads : list Obj) :
  Forall (λ lead, is_Some (obj_id lead)) leads →
  (NoDup (lead_ids leads) →
   (cacheLeads leads d).2 = Ok tt ∧
   queue_store (cacheLeads leads d).1 = queue_store d ∧
   ∀ o, o ∈ readAll (cacheLeads leads d).1 ↔ o ∈ leads) ∧
  (¬ NoDup (lead_ids leads) → cacheLeads leads d = (d, Err ConstraintError)) ∧
  replaceAll_atomic d leads.
Proof.
  intros Hids. split; [|split].
  - intros Hnd. rewrite cacheLeads_distinct by done. simpl.
    split; [done|]. split; [done|]. intros o. rewrite readAll_eq.
    cbn [fst leads_cache set_leads_cache]. by apply elem_of_replaced.
  - by apply cacheLeads_conflict.
  - unfold replaceAll_atomic. destruct (decide (NoDup (lead_ids leads))) as [Hnd|Hnd].
    + rewrite cacheLeads_distinct by done. done.
    + rewrite cacheLeads_conflict by done. done.
Qed.

(** The theorem at two leads with the id "1": the cache keeps lead 9. *)
Lemma C9_witness :
  cacheLeads [lead1a; lead1b] cached9 = (cached9, Err ConstraintError).
Proof.
  destruct (C9_replaceAll_all_or_nothing cached9 [lead1a; lead1b]) as (_ & Hdup & _).
  - repeat constructor; vm_compute; eauto.
  - apply Hdup. vm_compute. intros Hnd. apply NoDup_cons in Hnd as [Hnotin _].
    apply Hnotin. by left.
Defined.

(** C9 as stated fails: an insertion also fails when an entity has no id.
    Then add throws, the promise rejects, and the requests placed before
    (the clear and the insertion of lead 1) are committed: the cache that
    held lead 9 now holds lead 1. *)
Lemma C9_counterexample :
  (cacheLeads [lead1a; acme] cached9).2 = Err DataError ∧
  readAll (cacheLeads [lead1a; acme] cached9).1 = [lead1a] ∧
  readAll cached9 = [lead9] ∧
  ¬ replaceAll_atomic cached9 [lead1a; acme].
Proof.
  split; [vm_compute; reflexivity|].
  split; [vm_compute; reflexivity|].
  split; [vm_compute; reflexivity|].
  intros Hatomic.
  assert ((cacheLeads [lead1a; acme] cached9).1 = cached9) as Heq.
  { apply Hatomic. vm_compute. discriminate. }
  apply (f_equal (λ d, leads_cache d !! "9")) in Heq.
  vm_compute in Heq. discriminate.
Qed.

(** ** Enqueue, then drain *)

(** Operations whose timestamps increase strictly are told apart by their
    timestamps. *)
Lemma increasing_timestamps_inj (ops : list QueuedOperation) (a b : QueuedOperation) :
  StronglySorted Z.lt (op_timestamp <$> ops) →
  a ∈ ops → b ∈ ops → op_timestamp a = op_timestamp b → a = b.
Proof.
  induction ops as [|c ops IH]; intros Hs Ha Hb Heq.
  { by apply elem_of_nil in Ha. }
  rewrite fmap_cons in Hs. apply StronglySorted_inv in Hs as [Hs Hc].
  rewrite Forall_forall in Hc.
  assert (∀ x, x ∈ ops → (op_timestamp c < op_timestamp x)%Z) as Hlt.
  { intros x Hx. apply Hc. by apply list_elem_of_fmap_2. }
  apply elem_of_cons in Ha as [->|Ha]; apply elem_of_cons in Hb as [->|Hb].
  - done.
  - specialize (Hlt _ Hb). lia.
  - specialize (Hlt _ Ha). lia.
  - by apply IH.
Qed.

Lemma increasing_timestamps_Sorted (ops : list QueuedOperation) :
  StronglySorted Z.lt (op_timestamp <$> ops) →
  Sorted (λ a b, (op_timestamp a ≤ op_timestamp b)%Z) ops.
Proof.
  intros Hs. apply StronglySorted_Sorted.
  induction ops as [|c ops IH]; [constructor|].
  rewrite fmap_cons in Hs. apply StronglySorted_inv in Hs as [Hs Hc].
  constructor; [by apply IH|].
  rewrite Forall_forall in Hc. apply Forall_forall. intros x Hx.
  assert (op_timestamp c < op_timestamp x)%Z; [|lia].
  apply Hc. by apply list_elem_of_fmap_2.
Qed.

(** A log written at strictly increasing timestamps is replayed in the
    order in which it was written. *)
Lemma sort_of_increasing (ops logged_ops : list QueuedOperation) :
  StronglySorted Z.lt (op_timestamp <$> logged_ops) →
  ops ≡ₚ logged_ops →
  stable_sort timestamp_leb ops = logged_ops.
Proof.
  intros Hinc Hperm.
  assert (Transitive (λ a b, (op_timestamp a ≤ op_timestamp b)%Z)) as Htrans
    by (intros a b c; lia).
  apply (Sorted_unique_strong (λ a b, (op_timestamp a ≤ op_timestamp b)%Z)).
  - intros a b Ha Hb Hab Hba. apply elem_of_stable_sort in Ha.
    rewrite Hperm in Ha. apply (increasing_timestamps_inj logged_ops); [done..|lia].
  - eapply Sorted_weaken; [|apply stable_sort_Sorted, timestamp_leb_total].
    intros a b. unfold timestamp_leb. lia.
  - by apply increasing_timestamps_Sorted.
  - by rewrite stable_sort_Permutation.
Qed.

(** Removing from a keyed log every operation it holds empties it. *)
Lemma remove_all_logged (q : gmap string QueuedOperation) (ops : list QueuedOperation) :
  keyed op_key q → (∀ op, op ∈ IDB.getAll q → op ∈ ops) →
  foldl (λ q op, delete (op_id op) q) q ops = ∅.
Proof.
  intros Hq Hall.
  assert (∀ (l : list QueuedOperation) (m : gmap string QueuedOperation) k,
            foldl (λ q op, delete (op_id op) q) m l !! k =
              if decide (k ∈ op_id <$> l) then None else m !! k) as Hfold.
  { induction l as [|op l IH]; intros m k.
    { destruct (decide (k ∈ op_id <$> [])) as [Hk|Hk]; [|done].
      by apply elem_of_nil in Hk. }
    rewrite fmap_cons. cbn [foldl]. rewrite IH, lookup_delete.
    destruct (decide (k ∈ op_id <$> l)) as [Hl|Hl],
             (decide (k ∈ op_id op :: (op_id <$> l))) as [Hc|Hc],
             (decide (op_id op = k)) as [Hop|Hop]; try done;
      exfalso; rewrite elem_of_cons in Hc; intuition congruence. }
  apply map_eq. intros k. rewrite Hfold, lookup_empty.
  destruct (decide (k ∈ op_id <$> ops)) as [Hk|Hk]; [done|].
  destruct (q !! k) as [op|] eqn:Hop; [|done].
  exfalso. apply Hk.
  assert (op ∈ ops) as Hin by (apply Hall, elem_of_getAll; eauto).
  apply Hq in Hop. unfold op_key in Hop.
  apply list_elem_of_fmap. exists op. split; [congruence|done].
Qed.

Section EnqueueThenDrain.
Context {R : Type} (supabase : R → RemoteCall → R * option string).
Implicit Types (w : World R) (q : Enqueue) (qs : list Enqueue).

(** An enqueue call with a fresh operation id logs its operation, whether
    or not the cache accepts the optimistic write. *)
Lemma enqueue_fresh q w :
  queue_store (db w) !! op_id (logged q) = None →
  queue_store (db (enqueue q w).1)
    = <[op_id (logged q) := logged q]> (queue_store (db w)) ∧
  isSyncing (enqueue q w).1 = isSyncing w ∧
  calls (enqueue q w).1 = calls w.
Proof.
  intros Hid.
  destruct q as [uuid op_uuid now table data|op_uuid now table data|
                 op_uuid now table id]; simpl in *.
  - unfold await. by rewrite queueInsert_fresh.
  - destruct (obj_id data) as [k|] eqn:Hk.
    + by rewrite (queueUpdate_fresh _ _ _ _ k).
    + by rewrite queueUpdate_fresh_no_id.
  - by rewrite queueDelete_fresh.
Qed.

Lemma enqueue_all_fresh qs w :
  NoDup ((op_id ∘ logged) <$> qs) →
  (∀ q, q ∈ qs → queue_store (db w) !! op_id (logged q) = None) →
  queue_store (db (enqueue_all qs w))
    = list_to_map ((λ q, (op_id (logged q), logged q)) <$> qs)
      ∪ queue_store (db w) ∧
  isSyncing (enqueue_all qs w) = isSyncing w ∧
  calls (enqueue_all qs w) = calls w.
Proof.
  revert w. induction qs as [|q qs IH]; intros w Hnd Hfresh.
  { simpl. by rewrite (left_id_L ∅ (∪)). }
  rewrite fmap_cons in Hnd. apply NoDup_cons in Hnd as [Hq Hnd].
  destruct (enqueue_fresh q w) as (Hlog & Hsync & Hcalls).
  { apply Hfresh. by left. }
  change (enqueue_all (q :: qs) w) with (enqueue_all qs (enqueue q w).1).
  destruct (IH (enqueue q w).1) as (-> & -> & ->); [done| |].
  { intros q' Hq'. rewrite Hlog, lookup_insert_ne.
    - apply Hfresh. by right.
    - intros Heq. apply Hq. apply list_elem_of_fmap.
      exists q'. split; [exact Heq|done]. }
  split; [|done]. rewrite Hlog, fmap_cons. simpl.
  rewrite <-insert_union_l. rewrite <-insert_union_r; [done|].
  apply not_elem_of_list_to_map_1. by rewrite <-list_fmap_compose.
Qed.

(** A pass over operations on ['leads'] against a remote service that
    accepts every call removes each of them and makes its call. *)
Lemma replay_all_accepted ops st :
  (∀ r c, (supabase r c).2 = None) →
  Forall (λ op, op_table op = "leads") ops →
  let st' := foldl (replay_step supabase) st ops in
  queue_store (db st'.1)
    = foldl (λ m op, delete (op_id op) m) (queue_store (db st.1)) ops ∧
  calls st'.1 = calls st.1 ++ (call_of <$> ops).
Proof.
  intros Hok Hleads. revert st.
  induction Hleads as [|op ops Hop _ IH]; intros st; simpl.
  { by rewrite app_nil_r. }
  destruct (IH (replay_step supabase st op)) as [-> ->].
  unfold replay_step, remote_outcome. rewrite decide_False by (by intros []).
  specialize (Hok (remote st.1) (call_of op)).
  destruct (supabase (remote st.1) (call_of op)) as [r' e]. simpl in Hok.
  subst e. simpl. by rewrite <-app_assoc.
Qed.

(** C1 (amended): enqueue calls on the table 'leads', made from an empty
    log with fresh operation ids at strictly increasing timestamps, and
    then one drain against a remote service that accepts every call: the
    queue is empty afterwards, and the remote service has received one
    call per enqueued operation, in the order of the enqueue calls. *)
Theorem C1_enqueue_then_drain w0 qs :
  (∀ r c, (supabase r c).2 = None) →
  isSyncing w0 = false →
  queue_store (db w0) = ∅ →
  Forall (λ q, op_table (logged q) = "leads") qs →
  NoDup ((op_id ∘ logged) <$> qs) →
  StronglySorted Z.lt ((op_timestamp ∘ logged) <$> qs) →
  replays_everything supabase w0 qs.
Proof.
  intros Hok Hidle Hempty Hleads Hnd Hinc.
  set (kvs := (λ q, (op_id (logged q), logged q)) <$> qs).
  assert (kvs.*1 = (op_id ∘ logged) <$> qs) as Hkeys
    by (unfold kvs; by rewrite <-list_fmap_compose).
  assert (kvs.*2 = logged <$> qs) as Hvals
    by (unfold kvs; by rewrite <-list_fmap_compose).
  destruct (enqueue_all_fresh qs w0 Hnd) as (Hlog & Hsync & Hcalls).
  { intros q _. rewrite Hempty. apply lookup_empty. }
  rewrite Hempty, (right_id_L ∅ (∪)) in Hlog. fold kvs in Hlog.
  set (w1 := enqueue_all qs w0) in *.
  assert (keyed op_key (queue_store (db w1))) as Hkeyed.
  { intros k v. rewrite Hlog. intros Hkv%elem_of_list_to_map_2.
    unfold kvs in Hkv. apply list_elem_of_fmap in Hkv as [q [[= -> ->] _]].
    done. }
  assert (IDB.getAll (queue_store (db w1)) ≡ₚ logged <$> qs) as Hall.
  { rewrite getAll_Permutation, Hlog, map_to_list_to_map, Hvals; [done|].
    by rewrite Hkeys. }
  assert (replay_order w1 = logged <$> qs) as Horder.
  { apply sort_of_increasing; [|done]. by rewrite <-list_fmap_compose. }
  destruct (replay_all_accepted (logged <$> qs) ((setIsSyncing true w1).1, (0, 0)) Hok)
    as [Hlog' Hcalls'].
  { by apply Forall_fmap. }
  simpl in Hlog', Hcalls'.
  rewrite remove_all_logged in Hlog'; [|done|by intros op; rewrite Hall].
  unfold replays_everything. fold w1.
  rewrite (syncQueue_idle supabase w1) by congruence.
  unfold replay. rewrite Horder. simpl. unfold depth. simpl.
  rewrite Hlog', Hcalls', Hcalls. unfold IDB.count.
  rewrite map_size_empty. by rewrite list_fmap_compose.
Qed.
End EnqueueThenDrain.

(** The theorem at the three enqueue calls above. *)
Lemma C1_witness : replays_everything always_ok idle0 three_enqueues.
Proof.
  apply (C1_enqueue_then_drain always_ok idle0 three_enqueues).
  - done.
  - reflexivity.
  - reflexivity.
  - repeat constructor.
  - apply (bool_decide_unpack _). vm_compute. reflexivity.
  - apply (bool_decide_unpack _). vm_compute. reflexivity.
Defined.

(** C1 as stated fails: an insert into a table other than 'leads' is
    enqueued like any other, but the drain rejects it before any remote
    call; it stays in the log and the remote service receives nothing. *)
Lemma C1_counterexample :
  let w := (syncQueue always_ok
              (enqueue_all [QInsert "t1" "a" 1 "clients" acme] idle0)).1 in
  depth w = 1 ∧ calls w = [] ∧
  ¬ replays_everything always_ok idle0 [QInsert "t1" "a" 1 "clients" acme].
Proof.
  split; [vm_compute; reflexivity|].
  split; [vm_compute; reflexivity|].
  intros (Hdepth & _). vm_compute in Hdepth. discriminate.
Qed.

(** Two enqueue calls within the same millisecond are replayed in the
    order of their operation ids, here the second before the first. *)
Lemma same_millisecond_replay_order :
  calls (syncQueue always_ok
           (enqueue_all [QInsert "t1" "b" 5 "leads" acme;
                         QDelete "a" 5 "leads" "42"] idle0)).1
  = [RDelete (Some "42"); RInsert acme].
Proof. vm_compute. reflexivity. Qed.

(** * Further properties of the library *)

(** ** Appending to and removing from the log *)

(** X1: removeFromQueue of the id that addToQueue returned restores the
    database; removeFromQueue of an id that is not logged resolves and
    changes nothing. *)
Theorem X1_add_then_remove (id : string) (now : Z) (o : Operation) (d : DB) :
  queue_store d !! id = None →
  (do id' <- addToQueue id now o;
   removeFromQueue id') d = (d, Ok tt) ∧
  removeFromQueue id d = (d, Ok tt).
Proof.
  intros Hid. split.
  - unfold await. rewrite addToQueue_fresh by done.
    rewrite removeFromQueue_eq. simpl. rewrite delete_insert_eq.
    rewrite delete_id by done. by destruct d.
  - rewrite removeFromQueue_eq. rewrite delete_id by done. by destruct d.
Qed.

(** The theorem at the log of three operations and the fresh id "d". *)
Lemma X1_witness :
  (do id' <- addToQueue "d" 4 (mkOperation OpInsert "leads" acme);
   removeFromQueue id') logged3 = (logged3, Ok tt).
Proof.
  apply (X1_add_then_remove "d" 4 (mkOperation OpInsert "leads" acme) logged3).
  vm_compute. reflexivity.
Defined.

(** X2: addToQueue only appends.  It resolves exactly when the id is not
    logged yet; the operations logged before stay as they are, whatever
    the outcome; and after it resolves, the log holds one operation more,
    the new one under its id with the fields given. *)
Theorem X2_addToQueue_appends (id : string) (now : Z) (o : Operation) (d : DB) :
  let out := addToQueue id now o d in
  (out.2 = Ok id ↔ queue_store d !! id = None) ∧
  (∀ k op, queue_store d !! k = Some op → queue_store out.1 !! k = Some op) ∧
  (out.2 = Ok id →
   IDB.count (queue_store out.1) = S (IDB.count (queue_store d)) ∧
   queue_store out.1 !! id = Some (mkOp id (type o) (table o) (data o) now)) ∧
  (out.2 ≠ Ok id → out = (d, Err ConstraintError)).
Proof.
  destruct (queue_store d !! id) as [v|] eqn:Hid.
  - rewrite addToQueue_taken by eauto. simpl.
    split; [split; discriminate|]. split; [done|]. split; [discriminate|done].
  - rewrite addToQueue_fresh by done. simpl.
    split; [done|]. split; [|split; [|done]].
    + intros k op Hk. rewrite lookup_insert_ne; [done|]. congruence.
    + intros _. unfold IDB.count. rewrite map_size_insert_None by done.
      by rewrite lookup_insert_eq.
Qed.

(** X3: the two reads of the log agree.  getQueuedOperations lists exactly
    the operations stored, each once, and as many as getQueueCount counts;
    neither changes the database. *)
Theorem X3_reads_agree (d : DB) :
  ∃ ops,
    getQueuedOperations d = (d, Ok ops) ∧
    getQueueCount d = (d, Ok (length ops)) ∧
    ops ≡ₚ (map_to_list (queue_store d)).*2 ∧
    ∀ op, op ∈ ops ↔ ∃ k, queue_store d !! k = Some op.
Proof.
  eexists. split; [reflexivity|]. split; [|split].
  - unfold getQueueCount, IDB.count.
    by rewrite stable_sort_Permutation, getAll_Permutation, length_fmap,
      length_map_to_list.
  - by rewrite stable_sort_Permutation, getAll_Permutation.
  - intros op. by rewrite elem_of_stable_sort, elem_of_getAll.
Qed.

(** ** The order of the records read *)

Lemma StronglySorted_weaken_in {A} (R1 R2 : relation A) (l : list A) :
  (∀ a b, a ∈ l → b ∈ l → R1 a b → R2 a b) →
  StronglySorted R1 l → StronglySorted R2 l.
Proof.
  intros HR Hl. induction Hl as [|x l Hl IH Hx]; constructor.
  - apply IH. intros a b Ha Hb. apply HR; by right.
  - rewrite Forall_forall in Hx. apply Forall_forall. intros y Hy.
    apply HR; [by left|by right|by apply Hx].
Qed.

Section Stability.
Context {A : Type} (leb : A → A → bool) (R : relation A).
Hypothesis leb_total : ∀ x y, leb x y = false → leb y x = true.
Hypothesis leb_trans : ∀ x y z, leb x y = true → leb y z = true → leb x z = true.

Lemma insert_sorted_lex x l :
  StronglySorted (lex_sorted leb R) l → Forall (R x) l →
  StronglySorted (lex_sorted leb R) (insert_sorted leb x l).
Proof.
  induction 1 as [|y l Hl IH Hy]; intros Hx; simpl.
  { repeat constructor. }
  apply Forall_cons in Hx as [Hxy Hx].
  destruct (leb x y) eqn:Hleb.
  - constructor; [by constructor|]. constructor; [done|].
    rewrite Forall_forall in Hy, Hx. apply Forall_forall. intros z Hz.
    destruct (Hy z Hz) as [Hyz _]. split; [by eapply leb_trans|].
    intros _. by apply Hx.
  - constructor; [by apply IH|].
    rewrite insert_sorted_Permutation. constructor; [|done].
    split; [by apply leb_total|]. congruence.
Qed.

(** The sort is stable: records that [leb] does not tell apart keep the
    order [R] they came in. *)
Lemma stable_sort_lex l :
  StronglySorted R l → StronglySorted (lex_sorted leb R) (stable_sort leb l).
Proof.
  induction 1 as [|x l Hl IH Hx]; simpl; [constructor|].
  apply insert_sorted_lex; [done|]. by rewrite stable_sort_Permutation.
Qed.
End Stability.

(** [getAll] lists the records of a keyed store in the order of their keys. *)
Lemma getAll_key_order {V} (keyPath : V → option string) (s : gmap string V) :
  keyed keyPath s →
  StronglySorted
    (λ a b, ∃ ka kb, keyPath a = Some ka ∧ keyPath b = Some kb ∧ String.le ka kb)
    (IDB.getAll s).
Proof.
  intros Hs. unfold IDB.getAll.
  assert (StronglySorted (λ p q : string * V, String.le p.1 q.1)
            (stable_sort IDB.key_leb (map_to_list s))) as Hsorted.
  { apply Sorted_StronglySorted.
    { intros p q r. apply (transitivity (R:=String.le)). }
    eapply Sorted_weaken; [|apply stable_sort_Sorted].
    - intros p q Hpq. unfold String.le. by apply Is_true_true_2.
    - intros p q Hpq. unfold IDB.key_leb in *.
      destruct (String.leb_total p.1 q.1); congruence. }
  eapply StronglySorted_fmap; [|eapply StronglySorted_weaken_in; [|exact Hsorted]].
  - intros p q Hpq. exact Hpq.
  - intros [k1 v1] [k2 v2] H1 H2 Hle. simpl in *.
    apply elem_of_stable_sort, elem_of_map_to_list in H1, H2.
    exists k1, k2. split; [by apply Hs|]. split; [by apply Hs|done].
Qed.

Lemma log_order_sorted (q : gmap string QueuedOperation) :
  keyed op_key q →
  StronglySorted replay_before (stable_sort timestamp_leb (IDB.getAll q)).
Proof.
  intros Hq.
  eapply StronglySorted_weaken_in;
    [|apply (stable_sort_lex timestamp_leb), (getAll_key_order op_key), Hq].
  - intros a b _ _ [Hab Hba]. unfold timestamp_leb, replay_before in *.
    destruct (decide (op_timestamp a = op_timestamp b)) as [Heq|Hne].
    + right. split; [done|].
      destruct Hba as (ka & kb & Ha & Hb & Hle); [lia|].
      unfold op_key in *. congruence.
    + left. lia.
  - apply timestamp_leb_total.
  - unfold timestamp_leb. intros x y z. lia.
Qed.

(** X4: the order of a replay is fixed by the log alone: getQueuedOperations
    lists the operations stored in a keyed log, each once, by ascending
    timestamp, and operations with the same timestamp by ascending id; no
    other arrangement of the log is in that order. *)
Theorem X4_replay_order_is_by_timestamp_then_id (d : DB) :
  keyed op_key (queue_store d) →
  ∃ ops,
    getQueuedOperations d = (d, Ok ops) ∧
    ops ≡ₚ (map_to_list (queue_store d)).*2 ∧
    StronglySorted replay_before ops ∧
    ∀ ops', ops' ≡ₚ (map_to_list (queue_store d)).*2 →
            StronglySorted replay_before ops' → ops' = ops.
Proof.
  intros Hd. eexists. split; [reflexivity|].
  assert (stable_sort timestamp_leb (IDB.getAll (queue_store d))
            ≡ₚ (map_to_list (queue_store d)).*2) as Hperm
    by (by rewrite stable_sort_Permutation, getAll_Permutation).
  split; [done|]. split; [by apply log_order_sorted|].
  intros ops' Hperm' Hsorted.
  apply (StronglySorted_unique_strong replay_before);
    [|done|by apply log_order_sorted|by rewrite Hperm].
  intros a b Ha Hb Hab Hba.
  rewrite Hperm', <-getAll_Permutation in Ha.
  apply elem_of_stable_sort in Hb.
  apply elem_of_getAll in Ha as [ka Ha], Hb as [kb Hb].
  pose proof (Hd _ _ Ha) as Hka. pose proof (Hd _ _ Hb) as Hkb.
  unfold op_key in Hka, Hkb.
  assert (op_id a = op_id b) as Hid; [|congruence].
  unfold replay_before in *.
  destruct Hab as [?|[? Hle1]], Hba as [?|[? Hle2]]; try lia.
  by apply (anti_symm String.le).
Qed.

(** The theorem at the log of an insert and an update made within the same
    millisecond: the update, whose id is the smaller one, comes first. *)
Lemma X4_witness :
  getQueuedOperations (db same_ms_queued)
  = (db same_ms_queued,
     Ok [mkOp "a" OpUpdate "leads" won_temp 5; mkOp "b" OpInsert "leads" acme 5]).
Proof.
  destruct (X4_replay_order_is_by_timestamp_then_id (db same_ms_queued))
    as (ops & -> & Hperm & _ & Huniq).
  { apply (bool_decide_unpack _). vm_compute. reflexivity. }
  f_equal. f_equal. symmetry. apply Huniq.
  - vm_compute. reflexivity.
  - repeat constructor; right; (split; [reflexivity|]);
      apply (bool_decide_unpack _); vm_compute; reflexivity.
Defined.

(** ** Reading the cache back *)

Lemma replaced_keyed (leads : list Obj) :
  keyed obj_id (list_to_map (place_adds leads).1 : gmap string Obj).
Proof.
  intros k v Hkv. apply elem_of_list_to_map_2 in Hkv.
  pose proof (place_adds_keys leads) as Hkeys.
  rewrite Forall_forall in Hkeys. by apply (Hkeys (k, v)).
Qed.

(** X5: leads cached by cacheLeads come back from getCachedLeads all and
    once each, in the order of their ids, not in the order they were given
    in. *)
Theorem X5_cached_leads_come_back_by_id (d : DB) (leads : list Obj) :
  Forall (λ lead, is_Some (obj_id lead)) leads →
  NoDup (lead_ids leads) →
  ∃ d' out,
    (do_ cacheLeads leads;
     getCachedLeads) d = (d', Ok out) ∧
    out ≡ₚ leads ∧ StronglySorted id_before out.
Proof.
  intros Hids Hnd. unfold await. rewrite cacheLeads_distinct by done.
  eexists _, _. split; [reflexivity|].
  cbn [leads_cache set_leads_cache].
  destruct (place_adds_all leads Hids) as (_ & Hleads & Hkeys).
  split.
  - rewrite getAll_Permutation, map_to_list_to_map, Hleads; [done|].
    by rewrite Hkeys.
  - apply (getAll_key_order obj_id), replaced_keyed.
Qed.

(** The theorem at leads 2 and 1, given in this order: they come back as
    lead 1, lead 2. *)
Lemma X5_witness :
  ∃ d' out,
    (do_ cacheLeads [lead2; lead1a];
     getCachedLeads) cached9 = (d', Ok out) ∧
    out ≡ₚ [lead2; lead1a] ∧ StronglySorted id_before out.
Proof.
  apply (X5_cached_leads_come_back_by_id cached9 [lead2; lead1a]).
  - repeat constructor; vm_compute; eauto.
  - apply (bool_decide_unpack _). vm_compute. reflexivity.
Defined.

(** X6: updateCachedLead is an upsert by id.  Of two writes under the same
    id the second wins, every other entity stays as it is, and
    deleteCachedLead of that id afterwards leaves what it would have left
    without the write. *)
Theorem X6_upsert_last_writer_wins (e1 e2 : Obj) (k : string) (d : DB) :
  obj_id e1 = Some k → obj_id e2 = Some k →
  (do_ updateCachedLead e1;
   updateCachedLead e2) d = updateCachedLead e2 d ∧
  leads_cache (updateCachedLead e2 d).1 !! k = Some e2 ∧
  (∀ k', k' ≠ k →
         leads_cache (updateCachedLead e2 d).1 !! k' = leads_cache d !! k') ∧
  (do_ updateCachedLead e2;
   deleteCachedLead k) d = deleteCachedLead k d.
Proof.
  intros H1 H2. unfold await.
  rewrite !(updateCachedLead_id e1 k), !(updateCachedLead_id e2 k) by done.
  rewrite !deleteCachedLead_eq. simpl.
  rewrite insert_insert_eq, delete_insert_eq.
  split; [done|]. split; [apply lookup_insert_eq|]. split; [|done].
  intros k' Hk'. by rewrite lookup_insert_ne.
Qed.

(** The theorem at two versions of lead 1. *)
Lemma X6_witness :
  (do_ updateCachedLead lead1a;
   updateCachedLead lead1b) cached9 = updateCachedLead lead1b cached9.
Proof.
  apply (X6_upsert_last_writer_wins lead1a lead1b "1" cached9); reflexivity.
Defined.

(** * Further properties of the hook *)

(** ** What a pass sends and what it leaves *)
Section PassProperties.
Context {R : Type} (supabase : R → RemoteCall → R * option string).
Implicit Types (w : World R) (op : QueuedOperation).

(** X7: processOperation makes no remote call for a table other than
    'leads' and rejects with the table named; for 'leads' it makes exactly
    one call, and the record that an insert or an update sends never has an
    id field.  It changes nothing but the remote service. *)
Theorem X7_processOperation_sends_no_id op w :
  let out := processOperation supabase op w in
  db out.1 = db w ∧ toasts out.1 = toasts w ∧ queueCount out.1 = queueCount w ∧
  (op_table op ≠ "leads" →
   out = (w, Err (UnsupportedTable (op_table op)))) ∧
  (op_table op = "leads" →
   ∃ c, calls out.1 = calls w ++ [c] ∧
        (∀ record, call_record c = Some record → record !! "id" = None) ∧
        (out.2 = Ok tt ↔ (supabase (remote w) c).2 = None)).
Proof.
  rewrite processOperation_outcome. unfold remote_outcome.
  destruct (decide (op_table op ≠ "leads")) as [Hne|Heq]; simpl.
  { rewrite app_nil_r. repeat split; try done.
    intros _. by destruct w. }
  destruct (supabase (remote w) (call_of op)) as [r' e] eqn:Hcall. simpl.
  repeat split; try done.
  intros _. exists (call_of op). split; [done|]. split.
  - intros record. unfold call_of.
    destruct (op_type op); simpl; intros [= <-]; apply lookup_delete_eq.
  - rewrite Hcall. simpl. destruct e; simpl; split; done.
Qed.

(** X8: syncQueue never rejects, whatever the remote service answers, and
    leaves the flag isSyncing as it found it: a pass that ran has reset
    it. *)
Theorem X8_syncQueue_never_rejects w :
  (syncQueue supabase w).2 = Ok tt ∧
  isSyncing (syncQueue supabase w).1 = isSyncing w.
Proof.
  destruct (isSyncing w) eqn:Hs.
  - by rewrite syncQueue_busy.
  - by rewrite syncQueue_idle.
Qed.

Lemma replay_shrinks ops st :
  let st' := foldl (replay_step supabase) st ops in
  queue_store (db st'.1) ⊆ queue_store (db st.1).
Proof.
  revert st. induction ops as [|op ops IH]; intros st; simpl; [done|].
  etrans; [apply IH|]. unfold replay_step.
  destruct (remote_outcome supabase op (remote st.1)) as [[r' cs] [[]|e]];
    simpl; [apply delete_subseteq|done].
Qed.

(** X9: syncQueue never writes the cache, and in the log it only removes:
    every operation logged afterwards was logged before, unchanged.  So an
    entity cached under a temporary id is still cached under it after its
    insert has been replayed. *)
Theorem X9_syncQueue_only_removes w :
  leads_cache (db (syncQueue supabase w).1) = leads_cache (db w) ∧
  queue_store (db (syncQueue supabase w).1) ⊆ queue_store (db w) ∧
  ∀ k op, queue_store (db (syncQueue supabase w).1) !! k = Some op →
          queue_store (db w) !! k = Some op.
Proof.
  assert (queue_store (db (syncQueue supabase w).1) ⊆ queue_store (db w)) as Hsub.
  { destruct (isSyncing w) eqn:Hs; [by rewrite syncQueue_busy|].
    rewrite syncQueue_idle by done. simpl. apply replay_shrinks. }
  split; [|split; [done|]].
  - destruct (isSyncing w) eqn:Hs; [by rewrite syncQueue_busy|].
    rewrite syncQueue_idle by done. simpl. unfold replay.
    by destruct (replay_frame supabase (replay_order w)
                   ((setIsSyncing true w).1, (0, 0))) as (_ & _ & _ & -> & _).
  - intros k op Hk. by eapply lookup_weaken.
Qed.

(** Each success removes one operation from a log that holds the
    operations replayed under distinct ids. *)
Lemma replay_accounting ops st :
  NoDup (op_id <$> ops) →
  (∀ op, op ∈ ops → is_Some (queue_store (db st.1) !! op_id op)) →
  let st' := foldl (replay_step supabase) st ops in
  size (queue_store (db st'.1)) + st'.2.1 = size (queue_store (db st.1)) + st.2.1.
Proof.
  revert st. induction ops as [|op ops IH]; intros st Hnd Hin; simpl; [done|].
  rewrite fmap_cons in Hnd. apply NoDup_cons in Hnd as [Hop Hnd].
  destruct (Hin op) as [v Hv]; [by left|].
  rewrite IH; [|done|].
  - unfold replay_step.
    destruct (remote_outcome supabase op (remote st.1)) as [[r' cs] [[]|e]];
      simpl; [|done].
    rewrite map_size_delete_Some by eauto.
    assert (0 < size (queue_store (db st.1))); [|lia].
    destruct (decide (size (queue_store (db st.1)) = 0)) as [Hz|]; [|lia].
    apply map_size_empty_inv in Hz. rewrite Hz, lookup_empty in Hv. done.
  - intros op' Hop'. unfold replay_step.
    destruct (remote_outcome supabase op (remote st.1)) as [[r' cs] [[]|e]];
      simpl; [|apply Hin; by right].
    rewrite lookup_delete_ne; [apply Hin; by right|].
    intros Heq. apply Hop. rewrite Heq. by apply list_elem_of_fmap_2.
Qed.
End PassProperties.

Section PassTallies.
Context {R : Type} (supabase : R → RemoteCall → R * option string).
Implicit Types (w : World R) (op : QueuedOperation).

Lemma length_replay_order w : length (replay_order w) = depth w.
Proof.
  unfold replay_order, depth, IDB.count.
  by rewrite stable_sort_Permutation, getAll_Permutation, length_fmap,
    length_map_to_list.
Qed.

Lemma replay_order_logged w op :
  keyed op_key (queue_store (db w)) → op ∈ replay_order w →
  queue_store (db w) !! op_id op = Some op.
Proof.
  intros Hw Hop. apply elem_of_stable_sort, elem_of_getAll in Hop as [k Hk].
  pose proof (Hw _ _ Hk) as Hkey. unfold op_key in Hkey. congruence.
Qed.

Lemma replay_order_NoDup_ids w :
  keyed op_key (queue_store (db w)) → NoDup (op_id <$> replay_order w).
Proof.
  intros Hw. apply NoDup_fmap_2_strong.
  - intros a b Ha%(replay_order_logged w) Hb%(replay_order_logged w) Heq;
      [|done..]. congruence.
  - unfold replay_order. rewrite stable_sort_Permutation.
    by eapply getAll_NoDup.
Qed.

(** X10: the tallies of a pass account for the log.  Every operation logged
    when the pass starts is counted once, as a success or as a failure;
    as many operations as failed are logged when it ends, and this is the
    depth exposed afterwards. *)
Theorem X10_pass_accounting w :
  keyed op_key (queue_store (db w)) →
  isSyncing w = false →
  ∃ w' s f,
    syncPass supabase (setIsSyncing true w).1 = (w', Ok (s, f)) ∧
    s + f = depth w ∧
    depth w' = f ∧
    depth (syncQueue supabase w).1 = f ∧
    queueCount (syncQueue supabase w).1 = f.
Proof.
  intros Hkeyed Hidle. rewrite syncPass_replay, syncQueue_idle by done.
  destruct (replay supabase w) as [w' [s f]] eqn:Hreplay.
  exists w', s, f. split; [done|]. simpl.
  pose proof (replay_frame supabase (replay_order w)
                ((setIsSyncing true w).1, (0, 0))) as (_ & _ & _ & _ & _ & Hcnt).
  pose proof (replay_accounting supabase (replay_order w)
                ((setIsSyncing true w).1, (0, 0))
                (replay_order_NoDup_ids w Hkeyed)) as Hsize.
  fold (replay supabase w) in Hcnt, Hsize. rewrite Hreplay in Hcnt, Hsize.
  simpl in Hcnt, Hsize. rewrite length_replay_order in Hcnt.
  assert (size (queue_store (db w')) + s = depth w) as Hsize'.
  { unfold depth, IDB.count. rewrite Hsize; [lia|].
    intros op Hop. rewrite (replay_order_logged w op) by done. eauto. }
  clear Hsize. unfold depth, IDB.count in *. simpl. repeat split; lia.
Qed.

Lemma replay_all_rejected ops st :
  (∀ r c, (supabase r c).2 ≠ None) →
  let st' := foldl (replay_step supabase) st ops in
  db st'.1 = db st.1 ∧ st'.2.1 = st.2.1 ∧
  length (console st'.1) = length (console st.1) + length ops.
Proof.
  intros Hrej. revert st. induction ops as [|op ops IH]; intros st; simpl.
  { repeat split; lia. }
  destruct (IH (replay_step supabase st op)) as (-> & -> & ->).
  unfold replay_step, remote_outcome.
  destruct (decide (op_table op ≠ "leads")); simpl.
  { rewrite length_app. simpl. repeat split; lia. }
  specialize (Hrej (remote st.1) (call_of op)).
  destruct (supabase (remote st.1) (call_of op)) as [r' [msg|]]; simpl in *;
    [|done].
  rewrite length_app. simpl. repeat split; lia.
Qed.

(** X11: a pass against a remote service that rejects every call removes
    nothing and shows no toast: the database is as before, every operation
    is counted as failed and written to the console, and the user is told
    nothing. *)
Theorem X11_pass_without_success w :
  (∀ r c, (supabase r c).2 ≠ None) →
  isSyncing w = false →
  (syncPass supabase (setIsSyncing true w).1).2 = Ok (0, depth w) ∧
  db (syncQueue supabase w).1 = db w ∧
  toasts (syncQueue supabase w).1 = toasts w ∧
  queueCount (syncQueue supabase w).1 = depth w ∧
  length (console (syncQueue supabase w).1) = length (console w) + depth w.
Proof.
  intros Hrej Hidle. rewrite syncPass_replay, syncQueue_idle by done.
  pose proof (replay_all_rejected (replay_order w)
                ((setIsSyncing true w).1, (0, 0)) Hrej) as (Hdb & Hs & Hconsole).
  pose proof (replay_frame supabase (replay_order w)
                ((setIsSyncing true w).1, (0, 0))) as (_ & Htoasts & _ & _ & _ & Hcnt).
  fold (replay supabase w) in Hdb, Hs, Hconsole, Htoasts, Hcnt.
  destruct (replay supabase w) as [w' [s f]]. simpl in *. subst s.
  rewrite length_replay_order in Hcnt, Hconsole.
  replace f with (depth w) by lia. simpl.
  rewrite Hdb, Htoasts, Hconsole. done.
Qed.

End PassTallies.

(** The theorem at the three queued operations and the remote service that
    rejects the delete: two successes, one failure, one operation left. *)
Lemma X10_witness :
  ∃ w' s f,
    syncPass rejects_delete (setIsSyncing true three_queued).1 = (w', Ok (s, f)) ∧
    s + f = depth three_queued ∧ depth w' = f.
Proof.
  destruct (X10_pass_accounting rejects_delete three_queued)
    as (w' & s & f & Hpass & Hsum & Hleft & _).
  - apply (bool_decide_unpack _). vm_compute. reflexivity.
  - reflexivity.
  - exists w', s, f. auto.
Defined.

(** The theorem at the three queued operations. *)
Lemma X11_witness :
  db (syncQueue always_rejects three_queued).1 = db three_queued ∧
  toasts (syncQueue always_rejects three_queued).1 = toasts three_queued.
Proof.
  destruct (X11_pass_without_success always_rejects three_queued)
    as (_ & Hdb & Htoasts & _).
  - intros r c. discriminate.
  - reflexivity.
  - split; [exact Hdb | exact Htoasts].
Defined.

(** ** The effects and the indicator *)
Section EffectProperties.
Context {R : Type} (supabase : R → RemoteCall → R * option string).
Implicit Types (w : World R) (q : Enqueue).

(** X12: mounting the hook never starts a pass.  Online or offline and
    whatever the log holds, the effect that syncs on reconnect sees the
    initial count 0; no remote call is made, the database is untouched, and
    the depth exposed afterwards is the depth of the log. *)
Theorem X12_mount_never_drains (isOnline : bool) w :
  let out := mount supabase isOnline w in
  out.2 = Ok tt ∧
  calls out.1 = calls w ∧ remote out.1 = remote w ∧ db out.1 = db w ∧
  toasts out.1 = toasts w ∧
  queueCount out.1 = depth w ∧ isSyncing out.1 = false.
Proof.
  unfold mount, await, syncOnReconnect. simpl.
  rewrite andb_false_r. rewrite updateQueueCount_eq. simpl. done.
Qed.

(** An enqueue call that completes leaves a positive count exposed. *)
Lemma enqueue_completed_count q w :
  (enqueue q w).2 = Ok tt → (0 <? queueCount (enqueue q w).1)%nat = true.
Proof.
  intros Hq.
  destruct (queue_store (db w) !! op_id (logged q)) as [v|] eqn:Hid.
  { destruct q; simpl in *.
    - unfold await in Hq. rewrite queueInsert_taken in Hq by eauto. done.
    - rewrite queueUpdate_taken in Hq by eauto. done.
    - rewrite queueDelete_taken in Hq by eauto. done. }
  destruct q as [uuid op_uuid now table data|op_uuid now table data|
                 op_uuid now table id]; simpl in *.
  - unfold await. by rewrite queueInsert_fresh.
  - destruct (obj_id data) as [k|] eqn:Hk.
    + by rewrite (queueUpdate_fresh _ _ _ _ k).
    + by rewrite queueUpdate_fresh_no_id in Hq by done.
  - by rewrite queueDelete_fresh.
Qed.

(** X13: after an enqueue call that completed, the next change to online
    starts a pass, and a change to offline does nothing. *)
Theorem X13_reconnect_after_enqueue q w :
  (enqueue q w).2 = Ok tt →
  syncOnReconnect supabase true (enqueue q w).1
    = syncQueue supabase (enqueue q w).1 ∧
  syncOnReconnect supabase false (enqueue q w).1 = ((enqueue q w).1, Ok tt).
Proof.
  intros Hq. unfold syncOnReconnect.
  by rewrite (enqueue_completed_count q w Hq).
Qed.


(** X15: the button of the indicator and the effect that syncs on
    reconnect do the same in every state.  When the device is online, the
    exposed count is positive and no pass is running, each is a call of
    syncQueue that runs a pass: the logged operations are dispatched in
    replay order and the world is left as the pass leaves it.  In every
    other state each leaves the world as it is. *)
Theorem X15_click_is_reconnect (isOnline : bool) w :
  clickSync supabase isOnline w = syncOnReconnect supabase isOnline w ∧
  (isOnline = true ∧ 0 < queueCount w ∧ isSyncing w = false →
   clickSync supabase isOnline w = syncQueue supabase w ∧
   calls (clickSync supabase isOnline w).1
     = calls w ++ flat_map calls_of (replay_order w) ∧
   db (clickSync supabase isOnline w).1 = db (replay supabase w).1 ∧
   remote (clickSync supabase isOnline w).1 = remote (replay supabase w).1) ∧
  (clickSync supabase isOnline w ≠ (w, Ok tt) →
   isOnline = true ∧ 0 < queueCount w ∧ isSyncing w = false).
Proof.
  unfold clickSync, syncOnReconnect, SyncIndicator.
  destruct isOnline, (queueCount w) as [|n] eqn:Hn, (isSyncing w) eqn:Hs; simpl;
    try (split; [done|]; split; [intros (? & ? & ?); (done || lia)|];
         intros H; by destruct H).
  - rewrite syncQueue_busy by done. split; [done|].
    split; [intros (? & ? & ?); done|]. intros H. by destruct H.
  - split; [done|]. split; [|intros _; repeat split; lia].
    intros _. split; [done|]. split; [by apply syncQueue_calls|].
    by rewrite syncQueue_idle.
Qed.
End EffectProperties.

(** The theorem at the three queued operations, online: the click sends
    the three calls and empties the log. *)
Lemma X15_witness :
  calls (clickSync always_ok true three_queued).1 = three_calls ∧
  queue_store (db (clickSync always_ok true three_queued).1) = ∅.
Proof.
  destruct (X15_click_is_reconnect always_ok true three_queued)
    as (_ & H & _).
  destruct H as (_ & -> & -> & _).
  { split; [reflexivity|]. split; [vm_compute; lia|reflexivity]. }
  split; vm_compute; reflexivity.
Defined.

(** The theorem at an insert made offline from the empty world. *)
Lemma X13_witness :
  syncOnReconnect always_ok true (enqueue (QInsert "t1" "a" 1 "leads" acme) idle0).1
    = syncQueue always_ok (enqueue (QInsert "t1" "a" 1 "leads" acme) idle0).1.
Proof.
  apply (X13_reconnect_after_enqueue always_ok
           (QInsert "t1" "a" 1 "leads" acme) idle0).
  vm_compute. reflexivity.
Defined.


(** ** Deleting a lead from the table *)
Section HandleDelete.
Context {R : Type} (supabase : R → RemoteCall → R * option string).
Context (DOMException_message : Error → string).
Implicit Types (w : World R) (t : LeadsTable).

Lemma handleDelete_offline_eq (op_uuid : string) (now : Z) (id : string) t w :
  handleDelete supabase DOMException_message false op_uuid now id (t, w) =
    match queueDelete op_uuid now "leads" id w with
    | (w', Ok _) =>
        (({| table_leads := filter (λ lead, obj_id lead ≠ Some id) (table_leads t);
             deletingLeadId := None;
             leadUpdated := S (leadUpdated t) |}, w'), Ok tt)
    | (w', Err e) =>
        (({| table_leads := table_leads t; deletingLeadId := None;
             leadUpdated := leadUpdated t |},
          (toast (errorToast DOMException_message e) w').1), Ok tt)
    end.
Proof.
  unfold handleDelete, await, try_catch, on_hook. simpl.
  destruct (queueDelete op_uuid now "leads" id w) as [w' [[]|e]]; done.
Qed.

(** X16: handleDelete offline never contacts the remote service and never
    rejects.  When the delete can be logged, the lead leaves the table and
    the cache, a delete of that id on 'leads' is logged, and onLeadUpdated
    is called; when it cannot, database and table stay as they are and an
    error toast is shown.  Either way deletingLeadId is cleared. *)
Theorem X16_handleDelete_offline (op_uuid : string) (now : Z) (id : string) t w :
  let out := handleDelete supabase DOMException_message false op_uuid now id (t, w) in
  out.2 = Ok tt ∧
  calls out.1.2 = calls w ∧ remote out.1.2 = remote w ∧
  deletingLeadId out.1.1 = None ∧
  (queue_store (db w) !! op_uuid = None →
   table_leads out.1.1 = filter (λ lead, obj_id lead ≠ Some id) (table_leads t) ∧
   leadUpdated out.1.1 = S (leadUpdated t) ∧
   leads_cache (db out.1.2) = delete id (leads_cache (db w)) ∧
   queue_store (db out.1.2)
     = <[op_uuid := mkOp op_uuid OpDelete "leads" {["id" := id]} now]>
         (queue_store (db w)) ∧
   toasts out.1.2 = toasts w ++ [deletedOffline]) ∧
  (is_Some (queue_store (db w) !! op_uuid) →
   table_leads out.1.1 = table_leads t ∧
   leadUpdated out.1.1 = leadUpdated t ∧
   db out.1.2 = db w ∧
   toasts out.1.2
     = toasts w ++ [errorToast DOMException_message ConstraintError]).
Proof.
  rewrite handleDelete_offline_eq.
  destruct (queue_store (db w) !! op_uuid) as [v|] eqn:Hid.
  - rewrite queueDelete_taken by eauto. simpl.
    repeat split; try done; intros [=].
  - rewrite queueDelete_fresh by done. simpl.
    repeat split; try done; intros [? [=]].
Qed.

(** X17: handleDelete online sends one delete for the id and never
    rejects.  The lead leaves the table exactly when the remote service
    accepted the delete; otherwise the table keeps it and the toast shows
    the message of the remote service.  The database is not touched in
    either case: a lead deleted online stays in the cache. *)
Theorem X17_handleDelete_online (op_uuid : string) (now : Z) (id : string) t w :
  let out := handleDelete supabase DOMException_message true op_uuid now id (t, w) in
  out.2 = Ok tt ∧
  calls out.1.2 = calls w ++ [RDelete (Some id)] ∧
  db out.1.2 = db w ∧
  deletingLeadId out.1.1 = None ∧
  match (supabase (remote w) (RDelete (Some id))).2 with
  | None =>
      table_leads out.1.1 = filter (λ lead, obj_id lead ≠ Some id) (table_leads t) ∧
      leadUpdated out.1.1 = S (leadUpdated t) ∧
      toasts out.1.2 = toasts w ++ [deletedOnline]
  | Some msg =>
      table_leads out.1.1 = table_leads t ∧
      leadUpdated out.1.1 = leadUpdated t ∧
      toasts out.1.2
        = toasts w ++ [{| title := "Error"; description := msg;
                          destructive := true |}]
  end.
Proof.
  unfold handleDelete, await, try_catch, on_hook, from_leads. simpl.
  destruct (supabase (remote w) (RDelete (Some id))) as [r' [msg|]]; simpl; done.
Qed.
End HandleDelete.

(** The theorem at the table that shows leads 1 and 9, for lead 9. *)
Lemma X16_witness :
  table_leads
    (handleDelete always_ok plain_message false "d" 4 "9" (table19, world9)).1.1
    = [lead1a].
Proof.
  destruct (X16_handleDelete_offline always_ok plain_message "d" 4 "9"
              table19 world9) as (_ & _ & _ & _ & Hfresh & _).
  destruct Hfresh as (Hleads & _); [reflexivity|].
  rewrite Hleads. vm_compute. reflexivity.
Defined.

(** ** Edge cases of the enqueue functions *)
Section EnqueueEdges.
Context {R : Type} (supabase : R → RemoteCall → R * option string).
Implicit Types w : World R.

(** X18: a lead created offline and then edited offline under the
    temporary id it was given.  The drain sends the insert without an id
    and then an update addressed to the temporary id, which the remote
    service has never seen; afterwards the log is empty and the cache still
    holds the lead under the temporary id. *)
Theorem X18_edit_of_a_lead_created_offline
    (uuid u1 u2 : string) (t1 t2 : Z) (data data' : Obj) w :
  (∀ r c, (supabase r c).2 = None) →
  isSyncing w = false →
  queue_store (db w) = ∅ →
  u1 ≠ u2 → (t1 < t2)%Z →
  ∃ w',
    (do tempId <- queueInsert uuid u1 t1 "leads" data;
     do_ queueUpdate u2 t2 "leads" (<["id" := tempId]> data');
     syncQueue supabase) w = (w', Ok tt) ∧
    calls w' = calls w ++ [RInsert (delete "id" data);
                           RUpdate (Some ("temp_" +:+ uuid)) (delete "id" data')] ∧
    queue_store (db w') = ∅ ∧
    leads_cache (db w')
      = <["temp_" +:+ uuid := <["id" := "temp_" +:+ uuid]> data']>
          (leads_cache (db w)).
Proof.
  intros Hok Hidle Hempty Hne Hlt.
  set (tempId := "temp_" +:+ uuid).
  set (opI := mkOp u1 OpInsert "leads" data t1).
  set (opU := mkOp u2 OpUpdate "leads" (<["id" := tempId]> data') t2).
  unfold await at 1.
  rewrite queueInsert_fresh by (rewrite Hempty; apply lookup_empty).
  fold tempId. unfold await at 1.
  rewrite (queueUpdate_fresh _ _ _ _ tempId);
    [|simpl; rewrite Hempty, lookup_insert_ne by done; apply lookup_empty
     |apply lookup_insert_eq].
  simpl. rewrite Hempty, insert_insert_eq. fold opI opU.
  match goal with |- ∃ w', syncQueue _ ?x = _ ∧ _ => set (w2 := x) end.
  assert (replay_order w2 = [opI; opU]) as Horder.
  { apply sort_of_increasing.
    - simpl. repeat constructor. exact Hlt.
    - rewrite getAll_Permutation. subst w2. simpl.
      rewrite map_to_list_insert
        by (rewrite lookup_insert_ne by done; apply lookup_empty).
      rewrite map_to_list_insert by apply lookup_empty.
      rewrite map_to_list_empty. simpl. apply Permutation_swap. }
  destruct (replay_all_accepted supabase [opI; opU]
              ((setIsSyncing true w2).1, (0, 0)) Hok) as [Hlog Hcalls].
  { repeat constructor. }
  destruct (replay_frame supabase [opI; opU] ((setIsSyncing true w2).1, (0, 0)))
    as (_ & _ & _ & Hcache & _).
  rewrite syncQueue_idle by (subst w2; done).
  unfold replay. rewrite Horder.
  set (st := foldl (replay_step supabase) ((setIsSyncing true w2).1, (0, 0))
               [opI; opU]) in *.
  clearbody st. eexists. split; [reflexivity|]. simpl.
  rewrite Hlog, Hcalls, Hcache. subst w2. simpl.
  split; [|split; [|done]].
  - unfold call_of. simpl. unfold obj_id.
    by rewrite lookup_insert_eq, delete_insert_eq.
  - rewrite delete_insert_ne by done.
    by rewrite !delete_insert_eq, !delete_empty.
Qed.

(** X19: queueUpdate of data without an id.  The update is appended to the
    log, then the cache rejects the write: the call rejects with DataError
    although the operation is logged and will be replayed; the cache, the
    exposed count and the toasts stay as they were. *)
Theorem X19_update_without_id (op_uuid : string) (now : Z) (table : string)
    (data : Obj) w :
  queue_store (db w) !! op_uuid = None →
  obj_id data = None →
  let out := queueUpdate op_uuid now table data w in
  out.2 = Err DataError ∧
  queue_store (db out.1) !! op_uuid
    = Some (mkOp op_uuid OpUpdate table data now) ∧
  depth out.1 = S (depth w) ∧
  leads_cache (db out.1) = leads_cache (db w) ∧
  queueCount out.1 = queueCount w ∧
  toasts out.1 = toasts w.
Proof.
  intros Hid Hdata. rewrite queueUpdate_fresh_no_id by done. simpl.
  split; [done|]. split; [apply lookup_insert_eq|]. split; [|done].
  unfold depth, IDB.count. simpl. by rewrite map_size_insert_None.
Qed.
End EnqueueEdges.

(** The theorem at Acme created and then marked as won, both offline. *)
Lemma X18_witness :
  ∃ w',
    (do tempId <- queueInsert "abc" "a" 1 "leads" acme;
     do_ queueUpdate "b" 2 "leads" (<["id" := tempId]> won7);
     syncQueue always_ok) idle0 = (w', Ok tt) ∧
    calls w' = [RInsert acme; RUpdate (Some "temp_abc") {["stage" := "won"]}].
Proof.
  destruct (X18_edit_of_a_lead_created_offline always_ok
              "abc" "a" "b" 1 2 acme won7 idle0)
    as (w' & Hrun & Hcalls & _).
  - intros r c. reflexivity.
  - reflexivity.
  - reflexivity.
  - discriminate.
  - reflexivity.
  - exists w'. split; [exact Hrun|]. rewrite Hcalls. vm_compute. reflexivity.
Defined.

(** The theorem at an update of Acme, which has no id. *)
Lemma X19_witness :
  (queueUpdate "u" 1 "leads" acme idle0).2 = Err DataError ∧
  depth (queueUpdate "u" 1 "leads" acme idle0).1 = 1.
Proof.
  destruct (X19_update_without_id "u" 1 "leads" acme idle0)
    as (Hres & _ & Hdepth & _).
  - reflexivity.
  - reflexivity.
  - split; [exact Hres | exact Hdepth].
Defined.

(** ** The next pass *)

Lemma StronglySorted_filter_keeps {A} (R : relation A) (P : A → Prop)
    `{∀ x, Decision (P x)} (l : list A) :
  StronglySorted R l → StronglySorted R (filter P l).
Proof.
  induction 1 as [|x l Hl IH Hx]; [constructor|].
  rewrite filter_cons. destruct (decide (P x)); [|done].
  constructor; [done|]. rewrite Forall_forall in Hx. apply Forall_forall.
  intros y Hy. apply list_elem_of_filter in Hy as [_ Hy]. by apply Hx.
Qed.

Lemma keyed_subseteq {V} (keyPath : V → option string) (s1 s2 : gmap string V) :
  s1 ⊆ s2 → keyed keyPath s2 → keyed keyPath s1.
Proof. intros Hsub Hs k v Hk. apply Hs. by eapply lookup_weaken. Qed.

Section NextPass.
Context {R : Type} (supabase : R → RemoteCall → R * option string).
Implicit Types (w : World R) (op : QueuedOperation).

Lemma syncQueue_log_subseteq w :
  queue_store (db (syncQueue supabase w).1) ⊆ queue_store (db w).
Proof.
  destruct (isSyncing w) eqn:Hs; [by rewrite syncQueue_busy|].
  rewrite syncQueue_idle by done. simpl. apply replay_shrinks.
Qed.

(** X20: what a pass leaves in the log, the next pass replays in the same
    order: the replay order after syncQueue is the replay order before it
    without the operations that were removed. *)
Theorem X20_next_pass_retries_in_order w :
  keyed op_key (queue_store (db w)) →
  replay_order (syncQueue supabase w).1
    = filter (λ op, is_Some (queue_store (db (syncQueue supabase w).1) !! op_id op))
        (replay_order w).
Proof.
  intros Hkeyed.
  pose proof (syncQueue_log_subseteq w) as Hsub.
  set (w' := (syncQueue supabase w).1) in *.
  assert (keyed op_key (queue_store (db w'))) as Hkeyed'
    by (by eapply keyed_subseteq).
  assert (∀ op, op ∈ replay_order w' ↔ queue_store (db w') !! op_id op = Some op)
    as Hin'.
  { intros op. split; [by apply replay_order_logged|].
    intros Hop. apply elem_of_stable_sort, elem_of_getAll. eauto. }
  assert (∀ op, op ∈ replay_order w ↔ queue_store (db w) !! op_id op = Some op)
    as Hin.
  { intros op. split; [by apply replay_order_logged|].
    intros Hop. apply elem_of_stable_sort, elem_of_getAll. eauto. }
  apply (StronglySorted_unique_strong replay_before).
  - intros a b Ha Hb Hab Hba.
    apply Hin' in Ha. apply (lookup_weaken _ _ _ _ Ha) in Hsub as Ha'.
    apply list_elem_of_filter in Hb as [_ Hb]. apply Hin in Hb.
    assert (op_id a = op_id b) as Hid; [|congruence].
    unfold replay_before in *.
    destruct Hab as [?|[? Hle1]], Hba as [?|[? Hle2]]; try lia.
    by apply (anti_symm String.le).
  - by apply log_order_sorted.
  - apply StronglySorted_filter_keeps. by apply log_order_sorted.
  - apply NoDup_Permutation.
    + unfold replay_order. rewrite stable_sort_Permutation.
      by eapply getAll_NoDup.
    + apply NoDup_filter. unfold replay_order.
      rewrite stable_sort_Permutation. by eapply getAll_NoDup.
    + intros op. rewrite list_elem_of_filter, Hin', Hin. split.
      * intros Hop. split; [eauto|]. by eapply lookup_weaken.
      * intros [[op' Hop'] Hop]. rewrite Hop'. f_equal.
        apply (lookup_weaken _ _ _ _ Hop') in Hsub. congruence.
Qed.
End NextPass.

(** The theorem at the three queued operations and the remote service that
    rejects the delete: the next pass retries the delete. *)
Lemma X20_witness :
  replay_order (syncQueue rejects_delete three_queued).1 = [opB].
Proof.
  rewrite (X20_next_pass_retries_in_order rejects_delete three_queued).
  - vm_compute. reflexivity.
  - apply (bool_decide_unpack _). vm_compute. reflexivity.
Defined.

(** ** The key invariant of the reachable states *)
Section Reachable.
Context {R : Type} (supabase : R → RemoteCall → R * option string).
Implicit Types (w : World R) (a : Action).

Lemma perform_db_keyed w a :
  db_keyed (db w) → db_keyed (db (perform supabase w a)).
Proof.
  intros Hw. destruct a as [b|b|b| |q|leads]; simpl.
  - unfold mount, await, syncOnReconnect. simpl. rewrite andb_false_r.
    by rewrite updateQueueCount_eq.
  - unfold syncOnReconnect.
    destruct (b && (0 <? queueCount w)%nat); [|done].
    by apply syncQueue_db_keyed.
  - unfold clickSync.
    destruct (SyncIndicator b w) as [| |[] ? ?]; try done.
    by apply syncQueue_db_keyed.
  - by apply syncQueue_db_keyed.
  - by apply enqueue_db_keyed.
  - unfold on_db. pose proof (cacheLeads_db_keyed leads (db w) Hw) as Hc.
    by destruct (cacheLeads leads (db w)).
Qed.

(** X21: both stores stay keyed.  In every state reached from a keyed
    database by mounting, connectivity changes, clicks on the sync button,
    passes, enqueue calls and cacheLeads, every operation of the log is
    stored under its own id and every cached lead under its own id. *)
Theorem X21_reachable_states_are_keyed w (actions : list Action) :
  db_keyed (db w) →
  let w' := foldl (perform supabase) w actions in
  (∀ k op, queue_store (db w') !! k = Some op → op_id op = k) ∧
  (∀ k lead, leads_cache (db w') !! k = Some lead → lead !! "id" = Some k).
Proof.
  intros Hw w'.
  assert (db_keyed (db w')) as [Hq Hc].
  { subst w'. revert w Hw. induction actions as [|a actions IH]; intros w Hw;
      simpl; [done|]. by apply IH, perform_db_keyed. }
  split.
  - intros k op Hk. apply Hq in Hk. unfold op_key in Hk. congruence.
  - intros k lead Hk. by apply Hc in Hk.
Qed.
End Reachable.

(** The theorem at the empty world: mount offline, create a lead, come
    back online. *)
Lemma X21_witness :
  let w' := foldl (perform always_ok) idle0
              [DoMount false; DoEnqueue (QInsert "t1" "a" 1 "leads" acme);
               DoReconnect true] in
  (∀ k op, queue_store (db w') !! k = Some op → op_id op = k) ∧
  (∀ k lead, leads_cache (db w') !! k = Some lead → lead !! "id" = Some k).
Proof.
  apply (X21_reachable_states_are_keyed always_ok idle0).
  split; apply keyed_empty.
Defined.
